(** * Typed identifiers over a UUID: registry, validators and conversions

    A shallow embedding of [index.ts].  The file has three layers:

    - [Js]: the few JavaScript facilities the code relies on (exceptions,
      string primitives, property lookup on a plain object);
    - [TypeIDLib] and [Zod]: the two imported packages, [typeid-js] and
      [zod], which are not part of the repository sources; the suffix
      codec follows the specification, the rest follows what the packages
      do where the specification is silent or describes something else;
    - the definitions of [index.ts] itself, followed by the properties
      established about them.

    A 128-bit value is an integer [v] with [0 <= v < 2 ^ 128]; a call that
    may throw returns a [Completion]. *)

From Stdlib Require Import ZArith Lia List Ascii String Bool.
From stdpp Require Import base strings gmap.

Import ListNotations.
Local Open Scope Z_scope.
Local Open Scope string_scope.

(* ===================================================================== *)
(** ** JavaScript facilities *)
(* ===================================================================== *)

Module Js.

(** The failures named by the specification's error taxonomy, together
    with two failures of the imported packages that it does not name: a
    prefix that disagrees with the expected one ([asType]) and a text that
    is no valid UUID (the [TypeError] of [toUUID]).  The package's errors
    for an empty or ill-formed prefix are both [MalformedIdentifier]. *)
Inductive Error : Type :=
  | UnknownPrefix
  | MalformedIdentifier
  | InvalidSuffixLength
  | InvalidSuffixAlphabet
  | SuffixOverflow
  | PrefixMismatch
  | InvalidUUID.

(** A call either returns a value or throws: none of the functions of
    [index.ts] contains a handler, so an exception raised by a callee
    leaves the caller as well. *)
Inductive Completion (A : Type) : Type :=
  | Return (a : A)
  | Throw (e : Error).
Arguments Return {A} a.
Arguments Throw {A} e.

Definition bind {A B} (c : Completion A) (k : A -> Completion B) : Completion B :=
  match c with
  | Return a => k a
  | Throw e => Throw e
  end.

Definition throws {A} (c : Completion A) : Prop := exists e, c = Throw e.

(** A value of TypeScript's [unknown]. *)
Inductive unknown : Type :=
  | VString (s : string)
  | VNumber (n : Z)
  | VBoolean (b : bool)
  | VNull
  | VUndefined.

(** [s.startsWith(p)] *)
Definition startsWith (s p : string) : bool := String.prefix p s.

(** [s.slice(from, to)] for [from <= to]. *)
Definition slice (from to : nat) (s : string) : string :=
  String.substring from (to - from) s.

(** [s[i] === c] *)
Definition charIs (i : nat) (c : ascii) (s : string) : bool :=
  match String.get i s with
  | Some d => Ascii.eqb d c
  | None => false
  end.

(** The character at index [i] exists and satisfies [f]. *)
Definition charSat (i : nat) (f : ascii -> bool) (s : string) : bool :=
  match String.get i s with
  | Some d => f d
  | None => false
  end.

Fixpoint allChars (f : ascii -> bool) (s : string) : bool :=
  match s with
  | EmptyString => true
  | String c s' => (f c && allChars f s')%bool
  end.

Fixpoint mapChars (f : ascii -> ascii) (s : string) : string :=
  match s with
  | EmptyString => EmptyString
  | String c s' => String (f c) (mapChars f s')
  end.

(** [s.lastIndexOf(c)], [None] standing for -1. *)
Fixpoint lastIndexOf (c : ascii) (s : string) : option nat :=
  match s with
  | EmptyString => None
  | String d s' =>
      match lastIndexOf c s' with
      | Some i => Some (S i)
      | None => if Ascii.eqb d c then Some O else None
      end
  end.

(** [s.substring(from)] *)
Definition substringFrom (from : nat) (s : string) : string :=
  String.substring from (String.length s - from) s.

(** The white space that [parseInt] skips, among the characters below 256. *)
Definition isWhiteSpace (c : ascii) : bool :=
  let n := nat_of_ascii c in
  ((Nat.leb 9 n && Nat.leb n 13) || Nat.eqb n 32 || Nat.eqb n 160)%bool.

Fixpoint trimStart (s : string) : string :=
  match s with
  | EmptyString => EmptyString
  | String c s' => if isWhiteSpace c then trimStart s' else s
  end.

(** [s] with the character at index [i] removed. *)
Fixpoint removeAt (i : nat) (s : string) : string :=
  match s with
  | EmptyString => EmptyString
  | String c s' =>
      match i with
      | O => s'
      | S i' => String c (removeAt i' s')
      end
  end.

(** [c.repeat(n)] for a one-character string. *)
Fixpoint repeatChar (c : ascii) (n : nat) : string :=
  match n with
  | O => EmptyString
  | S n' => String c (repeatChar c n')
  end.

(** The result of reading property [k] of a plain object: an own property,
    a property found on [Object.prototype], or [undefined]. *)
Inductive Property (V : Type) : Type :=
  | Own (v : V)
  | Inherited (k : string)
  | Undefined.
Arguments Own {V} v.
Arguments Inherited {V} k.
Arguments Undefined {V}.

Definition objectPrototypeKeys : list string :=
  [ "constructor"; "hasOwnProperty"; "isPrototypeOf"; "propertyIsEnumerable";
    "toLocaleString"; "toString"; "valueOf"; "__proto__";
    "__defineGetter__"; "__defineSetter__"; "__lookupGetter__";
    "__lookupSetter__" ].

(** [obj[k]] *)
Definition getProperty {V} (obj : gmap string V) (k : string) : Property V :=
  match obj !! k with
  | Some v => Own v
  | None =>
      if existsb (String.eqb k) objectPrototypeKeys then Inherited k
      else Undefined
  end.

(** [Object.fromEntries(l)]: a later entry overwrites an earlier one with
    the same key. *)
Definition fromEntries {V} (l : list (string * V)) : gmap string V :=
  fold_left (fun m kv => <[ fst kv := snd kv ]> m) l ∅.

End Js.

Import Js.

Declare Scope completion_scope.
Delimit Scope completion_scope with completion.
Notation "'let*' x ':=' c 'in' k" := (bind c (fun x => k))
  (at level 10, x pattern, c at level 100, k at level 200)
  : completion_scope.
Local Open Scope completion_scope.

(* ===================================================================== *)
(** ** The identifier package ([typeid-js]) *)
(* ===================================================================== *)

Module TypeIDLib.

(** *** Positional text over an alphabet of [2^bits] symbols *)

(** The symbol standing for digit [d]. *)
Definition symbolOf (alpha : string) (d : Z) : ascii :=
  match String.get (Z.to_nat d) alpha with
  | Some c => c
  | None => "0"%char
  end.

(** The digit a symbol stands for, if it belongs to the alphabet. *)
Fixpoint indexOf (c : ascii) (alpha : string) : option Z :=
  match alpha with
  | EmptyString => None
  | String a rest =>
      if Ascii.eqb a c then Some 0 else option_map Z.succ (indexOf c rest)
  end.

(** [n] symbols of [bits] bits each, most significant first. *)
Fixpoint encodeDigits (alpha : string) (bits : Z) (n : nat) (v : Z) : string :=
  match n with
  | O => EmptyString
  | S n' =>
      String
        (symbolOf alpha (Z.land (Z.shiftr v (bits * Z.of_nat n')) (Z.ones bits)))
        (encodeDigits alpha bits n' v)
  end.

(** The digit of [v] at position [n], counted from the least significant. *)
Definition digitAt (bits : Z) (n : nat) (v : Z) : Z :=
  (v / 2 ^ (bits * Z.of_nat n)) mod 2 ^ bits.

Fixpoint decodeDigits (valueOf : ascii -> option Z) (bits : Z) (acc : Z)
    (s : string) : option Z :=
  match s with
  | EmptyString => Some acc
  | String c s' =>
      match valueOf c with
      | Some d => decodeDigits valueOf bits (Z.shiftl acc bits + d) s'
      | None => None
      end
  end.

(** *** Suffix codec *)

(** Modelled from the spec: the suffix alphabet of the package, which is
    imported by [index.ts] and absent from the sources; 32 symbols in
    increasing order, without [i], [l], [o], [u]. *)
Definition alphabet : string := "0123456789abcdefghjkmnpqrstvwxyz".

Definition suffixLength : nat := 26.

Definition suffixValue (c : ascii) : option Z := indexOf c alphabet.

(** The symbol of digit [d] precedes that of digit [e] in character order. *)
Definition symbolLt (d e : Z) : bool :=
  match Ascii.compare (symbolOf alphabet d) (symbolOf alphabet e) with
  | Lt => true
  | _ => false
  end.

(** Modelled from the spec: the package's [encode], absent from the
    sources; packs a 128-bit value into 26 base-32 symbols, the two extra
    high-order bits being zero. *)
Definition encode (v : Z) : string := encodeDigits alphabet 5 suffixLength v.

(** Modelled from the spec: the package's [decode], absent from the
    sources; rejects a text that is not 26 characters long, then one with a
    character outside the alphabet, then one whose value needs more than
    128 bits.  The package's own test of the first character (at most 7)
    refuses the same texts as the last of these. *)
Definition decode (s : string) : Completion Z :=
  if negb (Nat.eqb (String.length s) suffixLength) then Throw InvalidSuffixLength
  else
    match decodeDigits suffixValue 5 0 s with
    | None => Throw InvalidSuffixAlphabet
    | Some v => if (2 ^ 128 <=? v)%Z then Throw SuffixOverflow else Return v
    end.

(** *** UUID text *)

Definition hexAlphabet : string := "0123456789abcdef".

Definition toLower (c : ascii) : ascii :=
  let n := nat_of_ascii c in
  if (Nat.leb 65 n && Nat.leb n 90)%bool then ascii_of_nat (n + 32) else c.

Definition hexValue (c : ascii) : option Z := indexOf (toLower c) hexAlphabet.

Definition isHexChar (c : ascii) : bool :=
  match hexValue c with
  | Some _ => true
  | None => false
  end.

(** One of the sixteen digits that [stringify] writes. *)
Definition isLowerHexDigit (c : ascii) : bool :=
  match indexOf c hexAlphabet with
  | Some _ => true
  | None => false
  end.

(** Modelled from the spec: the package's rendering of a 128-bit value as a
    standard UUID, absent from the sources; 32 lower-case hexadecimal
    digits in groups of 8-4-4-4-12. *)
Definition stringify (v : Z) : string :=
  let h := encodeDigits hexAlphabet 4 32 v in
  slice 0 8 h ++ "-" ++ slice 8 12 h ++ "-" ++ slice 12 16 h ++ "-"
    ++ slice 16 20 h ++ "-" ++ slice 20 32 h.

Definition uuidShape (uuid : string) : bool :=
  (Nat.eqb (String.length uuid) 36
   && charIs 8 "-" uuid && charIs 13 "-" uuid
   && charIs 18 "-" uuid && charIs 23 "-" uuid)%bool.

Definition uuidGroups (uuid : string) : string :=
  slice 0 8 uuid ++ slice 9 13 uuid ++ slice 14 18 uuid
    ++ slice 19 23 uuid ++ slice 24 36 uuid.

Definition nilUUID : string := "00000000-0000-0000-0000-000000000000".
Definition maxUUID : string := "ffffffff-ffff-ffff-ffff-ffffffffffff".

Definition versionChar (c : ascii) : bool :=
  let n := nat_of_ascii c in (Nat.leb 49 n && Nat.leb n 56)%bool.

Definition variantChar (c : ascii) : bool :=
  match hexValue c with
  | Some d => ((8 <=? d)%Z && (d <=? 11)%Z)%bool
  | None => false
  end.

(** Modelled from the spec: the validity test that the package applies to
    the UUID it has rendered, absent from the sources and not described by
    the spec; it follows the package: hexadecimal groups of 8-4-4-4-12
    with a version digit from 1 to 8 and a variant digit 8, 9, a or b, or
    else the nil or the max UUID, in either case. *)
Definition uuidValidate (uuid : string) : bool :=
  ((uuidShape uuid && allChars isHexChar (uuidGroups uuid)
    && charSat 14 versionChar uuid && charSat 19 variantChar uuid)
   || String.eqb (mapChars toLower uuid) nilUUID
   || String.eqb (mapChars toLower uuid) maxUUID)%bool.

(** The longest prefix of hexadecimal digits. *)
Fixpoint hexDigitsPrefix (s : string) : string :=
  match s with
  | EmptyString => EmptyString
  | String c s' =>
      if isHexChar c then String c (hexDigitsPrefix s') else EmptyString
  end.

(** [parseInt(s, 16)], [None] standing for [NaN]: leading white space, a
    sign and a [0x] are skipped, then the longest run of digits is read. *)
Definition parseInt16 (s : string) : option Z :=
  let s1 := trimStart s in
  let signed :=
    match s1 with
    | String c r =>
        if Ascii.eqb c "-" then (-1, r)
        else if Ascii.eqb c "+" then (1, r)
        else (1, s1)
    | EmptyString => (1, s1)
    end in
  let s2 := snd signed in
  let s3 :=
    match s2 with
    | String a (String b r) =>
        if (Ascii.eqb a "0" && (Ascii.eqb b "x" || Ascii.eqb b "X"))%bool
        then r else s2
    | _ => s2
    end in
  match hexDigitsPrefix s3 with
  | EmptyString => None
  | digits => option_map (Z.mul (fst signed)) (decodeDigits hexValue 4 0 digits)
  end.

(** [x >>> 0] and the integer that [&] sees; [NaN] counts as 0. *)
Definition toUint32 (x : option Z) : Z :=
  match x with
  | Some z => z mod 2 ^ 32
  | None => 0
  end.

Definition toInteger (x : option Z) : Z :=
  match x with
  | Some z => z
  | None => 0
  end.

(** What a [Uint8Array] keeps of an integer, which is also [z & 0xff]. *)
Definition toUint8 (z : Z) : Z := z mod 256.

(** Modelled from the spec: the package's reading of a UUID text into 16
    bytes, absent from the sources and not described by the spec; it
    follows the package, which checks nothing: the five groups are cut at
    fixed positions and read with [parseInt], and each byte keeps eight
    bits of the result.  The value is that of the 16 bytes, most
    significant first. *)
Definition parseUUID (uuid : string) : Z :=
  let v1 := parseInt16 (slice 0 8 uuid) in
  let v2 := parseInt16 (slice 9 13 uuid) in
  let v3 := parseInt16 (slice 14 18 uuid) in
  let v4 := parseInt16 (slice 19 23 uuid) in
  let v5 := parseInt16 (slice 24 36 uuid) in
  let arr :=
    [ toUint8 (Z.shiftr (toUint32 v1) 24);
      toUint8 (Z.shiftr (toUint32 v1) 16);
      toUint8 (Z.shiftr (toUint32 v1) 8);
      toUint8 (toInteger v1);
      toUint8 (Z.shiftr (toUint32 v2) 8);
      toUint8 (toInteger v2);
      toUint8 (Z.shiftr (toUint32 v3) 8);
      toUint8 (toInteger v3);
      toUint8 (Z.shiftr (toUint32 v4) 8);
      toUint8 (toInteger v4);
      toUint8 (Z.quot (toInteger v5) (2 ^ 40));
      toUint8 (Z.quot (toInteger v5) (2 ^ 32));
      toUint8 (Z.shiftr (toUint32 v5) 24);
      toUint8 (Z.shiftr (toUint32 v5) 16);
      toUint8 (Z.shiftr (toUint32 v5) 8);
      toUint8 (toInteger v5) ] in
  fold_left (fun acc b => acc * 256 + b) arr 0.

(** A version-7 UUID: version digit 7 and variant bits 10, which is what
    the generator of the package draws. *)
Definition isUUIDv7 (v : Z) : bool :=
  ((digitAt 4 19 v =? 7)%Z && (digitAt 2 31 v =? 2)%Z)%bool.

(** *** Identifier codec *)

Definition isLower (c : ascii) : bool :=
  let n := nat_of_ascii c in (Nat.leb 97 n && Nat.leb n 122)%bool.

Definition firstChar (s : string) : option ascii :=
  match s with
  | EmptyString => None
  | String c _ => Some c
  end.

Fixpoint lastChar (s : string) : option ascii :=
  match s with
  | EmptyString => None
  | String c EmptyString => Some c
  | String _ s' => lastChar s'
  end.

Definition optionSat (f : ascii -> bool) (o : option ascii) : bool :=
  match o with
  | Some c => f c
  | None => true
  end.

(** Modelled from the spec: the package's prefix syntax, absent from the
    sources; at most 63 characters.  It follows the package where the spec
    differs: lower-case letters and underscores, the first and the last
    character being letters; the empty prefix is well formed. *)
Definition isValidPrefix (p : string) : bool :=
  (Nat.leb (String.length p) 63
   && allChars (fun c => (isLower c || Ascii.eqb c "_")%bool) p
   && optionSat isLower (firstChar p)
   && optionSat isLower (lastChar p))%bool.

(** Modelled from the spec: the package's [format], absent from the
    sources; the suffix alone for the empty prefix. *)
Definition format (prefix suffix : string) : string :=
  match prefix with
  | EmptyString => suffix
  | _ => prefix ++ "_" ++ suffix
  end.

(** *** The unboxed interface: functions on the text itself *)

(** Modelled from the spec: the package's function [getType], absent from
    the sources; the text before the last underscore, empty when there is
    none. *)
Definition getType (id : string) : string :=
  match lastIndexOf "_" id with
  | None => EmptyString
  | Some i => String.substring 0 i id
  end.

(** Modelled from the spec: the package's function [getSuffix], absent
    from the sources; the text after the last underscore, the whole text
    when there is none. *)
Definition getSuffix (id : string) : string :=
  match lastIndexOf "_" id with
  | None => id
  | Some i => substringFrom (S i) id
  end.

(** Modelled from the spec: the package's [typeidUnboxed] for a given
    suffix, absent from the sources; the prefix must be well formed and
    the suffix must decode. *)
Definition typeidUnboxed (prefix suffix : string) : Completion string :=
  if negb (isValidPrefix prefix) then Throw MalformedIdentifier
  else
    let* _ := decode suffix in
    Return (format prefix suffix).

(** Modelled from the spec: the package's function [fromString], absent
    from the sources; it follows the package where the spec differs: the
    text is cut at its last underscore, a text without underscore is a
    suffix with the empty prefix, and an underscore with nothing before it
    is refused. *)
Definition fromString (typeId : string) : Completion string :=
  let* ps :=
    match lastIndexOf "_" typeId with
    | None => Return (EmptyString, typeId)
    | Some i =>
        let p := String.substring 0 i typeId in
        let s := substringFrom (S i) typeId in
        if String.eqb p EmptyString then Throw MalformedIdentifier
        else Return (p, s)
    end in
  if String.eqb (snd ps) EmptyString then Throw InvalidSuffixLength
  else typeidUnboxed (fst ps) (snd ps).

(** Modelled from the spec: the package's function [toUUID], absent from
    the sources; decode the suffix and render it as a UUID.  It follows
    the package in what the spec does not describe: the rendered text is
    checked, and a text that is no valid UUID is thrown back. *)
Definition toUUID (id : string) : Completion string :=
  let* v := decode (getSuffix id) in
  let text := stringify v in
  if uuidValidate text then Return text else Throw InvalidUUID.

(** *** The boxed interface: class [TypeID] *)

Record TypeID : Type := mkTypeID { tidPrefix : string; tidSuffix : string }.

(** Modelled from the spec: the constructor of the package's class for a
    given suffix, absent from the sources; the identifier is checked as a
    text and taken apart again. *)
Definition newTypeID (prefix suffix : string) : Completion TypeID :=
  let* raw := typeidUnboxed prefix suffix in
  Return (mkTypeID (getType raw) (getSuffix raw)).

(** Modelled from the spec: [TypeID.fromString], absent from the sources;
    the unboxed [fromString], then the constructor. *)
Definition TypeID_fromString (text : string) : Completion TypeID :=
  let* raw := fromString text in
  newTypeID (getType raw) (getSuffix raw).

(** Modelled from the spec: [TypeID.fromUUID], absent from the sources;
    encode the value of the UUID and attach the prefix. *)
Definition TypeID_fromUUID (prefix uuid : string) : Completion TypeID :=
  newTypeID prefix (encode (parseUUID uuid)).

(** Modelled from the spec: [typeid(prefix)], absent from the sources;
    [fresh] is the 128-bit value drawn from the unique-value source. *)
Definition typeid (fresh : Z) (prefix : string) : Completion TypeID :=
  newTypeID prefix (encode fresh).

(** Modelled from the spec: the method [asType], absent from the sources;
    prefix and expected type must agree. *)
Definition asType (id : TypeID) (prefix : string) : Completion TypeID :=
  if String.eqb (tidPrefix id) prefix then Return id else Throw PrefixMismatch.

Definition TypeID_getType (id : TypeID) : string := tidPrefix id.

Definition TypeID_toString (id : TypeID) : string :=
  format (tidPrefix id) (tidSuffix id).

End TypeIDLib.

(* ===================================================================== *)
(** ** The validation package ([zod]) *)
(* ===================================================================== *)

Module Zod.

Inductive ZodIssue : Type :=
  | invalid_type
  | invalid_string_startsWith (p : string)
  | too_small (n : nat)
  | too_big (n : nat).

Inductive StringCheck : Type :=
  | CheckStartsWith (p : string)
  | CheckLength (n : nat).

(** A string schema is the list of its checks, in the order of the calls
    that added them. *)
Definition ZodString : Type := list StringCheck.

Record ZodEffects (A : Type) : Type := mkEffects {
  schema : ZodString;
  effect : string -> Completion A
}.
Arguments mkEffects {A} schema effect.
Arguments schema {A} z.
Arguments effect {A} z.

Definition z_string : ZodString := [].
Definition z_startsWith (p : string) (z : ZodString) : ZodString :=
  (z ++ [CheckStartsWith p])%list.
Definition z_length (n : nat) (z : ZodString) : ZodString :=
  (z ++ [CheckLength n])%list.
Definition z_transform {A} (f : string -> Completion A) (z : ZodString)
    : ZodEffects A :=
  mkEffects z f.

Inductive SafeParseReturn (A : Type) : Type :=
  | SafeParseSuccess (data : A)
  | SafeParseError (issues : list ZodIssue).
Arguments SafeParseSuccess {A} data.
Arguments SafeParseError {A} issues.

Definition success {A} (r : SafeParseReturn A) : bool :=
  match r with
  | SafeParseSuccess _ => true
  | SafeParseError _ => false
  end.

Definition runCheck (s : string) (c : StringCheck) : list ZodIssue :=
  match c with
  | CheckStartsWith p =>
      if startsWith s p then [] else [invalid_string_startsWith p]
  | CheckLength n =>
      if Nat.ltb n (String.length s) then [too_big n]
      else if Nat.ltb (String.length s) n then [too_small n]
      else []
  end.

(** Modelled from the spec: the package's [safeParse] on a string schema
    with a transform, absent from the sources.  The spec gives the checks
    (textual, prefix, length) and the structured result; how the transform
    is run follows the package: every check is run and contributes its
    issue to a structured failure, the transform is called only on a value
    that raised no issue, and, being a callback of the caller, what it
    throws is not turned into an issue but leaves [safeParse] as an
    exception. *)
Definition safeParse {A} (z : ZodEffects A) (data : unknown)
    : Completion (SafeParseReturn A) :=
  match data with
  | VString s =>
      match flat_map (runCheck s) (schema z) with
      | [] =>
          let* out := effect z s in
          Return (SafeParseSuccess out)
      | issues => Return (SafeParseError issues)
      end
  | _ => Return (SafeParseError [invalid_type])
  end.

End Zod.

(* ===================================================================== *)
(** ** [index.ts] *)
(* ===================================================================== *)

Import TypeIDLib Zod.

Notation "x |> f" := (f x) (at level 50, left associativity, only parsing).

Definition typeIdLength : nat := 26.

(** The keys of the registry object: the closed union [IdTypePrefixNames]. *)
Inductive IdTypePrefixNames : Type := user | post | comment.

Definition idTypesMapNameToPrefix (name : IdTypePrefixNames) : string :=
  match name with
  | user => "usr"
  | post => "pst"
  | comment => "cmt"
  end.

(** [Object.entries(idTypesMapNameToPrefix)], in the order of the literal. *)
Definition idTypesEntries : list (IdTypePrefixNames * string) :=
  map (fun x => (x, idTypesMapNameToPrefix x)) [user; post; comment].

Definition idTypesMapPrefixToName : gmap string IdTypePrefixNames :=
  fromEntries (map (fun xy => (snd xy, fst xy)) idTypesEntries).

(** The two arguments that [typeIdValidator] hands to its checks. *)
Definition expectedStart (name : IdTypePrefixNames) : string :=
  idTypesMapNameToPrefix name ++ "_".
Definition expectedLength (name : IdTypePrefixNames) : nat :=
  (typeIdLength + String.length (idTypesMapNameToPrefix name) + 1)%nat.

Definition typeIdValidator (prefix : IdTypePrefixNames) : ZodEffects string :=
  z_string
    |> z_startsWith (idTypesMapNameToPrefix prefix ++ "_")
    |> z_length
         (typeIdLength + String.length (idTypesMapNameToPrefix prefix) + 1)
    |> z_transform (fun input =>
         let* id := TypeID_fromString input in
         let* id' := asType id (idTypesMapNameToPrefix prefix) in
         Return (TypeID_toString id')).

(** [fresh] is the value the generator draws from its unique-value source. *)
Definition typeIdGenerator (fresh : Z) (prefix : IdTypePrefixNames)
    : Completion string :=
  let* id := typeid fresh (idTypesMapNameToPrefix prefix) in
  Return (TypeID_toString id).

Definition typeIdFromUUID (prefix : IdTypePrefixNames) (uuid : string)
    : Completion string :=
  let actualPrefix := idTypesMapNameToPrefix prefix in
  let* id := TypeID_fromUUID actualPrefix uuid in
  Return (TypeID_toString id).

Record UuidAndPrefix : Type := mkUuidAndPrefix {
  uuid : string;
  prefix : string
}.

Definition typeIdToUUID (input : string) : Completion UuidAndPrefix :=
  let* id := fromString input in
  let* u := toUUID id in
  Return (mkUuidAndPrefix u (getType id)).

Definition validateTypeId (prefix : IdTypePrefixNames) (data : unknown)
    : Completion bool :=
  let* r := safeParse (typeIdValidator prefix) data in
  Return (success r).

Definition inferTypeId (input : string)
    : Completion (Property IdTypePrefixNames) :=
  let* id := TypeID_fromString input in
  Return (getProperty idTypesMapPrefixToName (TypeID_getType id)).

(* ===================================================================== *)
(** ** [example.drizzle.ts]: the column type *)
(* ===================================================================== *)

(** The conversions handed to [customType]: the database holds the UUID,
    the program the identifier. *)
Record TypeIdColumn : Type := mkTypeIdColumn {
  dataType : string;
  fromDriver : string -> Completion string;
  toDriver : string -> Completion string
}.

Definition typeId (prefix : IdTypePrefixNames) (columnName : string)
    : TypeIdColumn :=
  mkTypeIdColumn
    "uuid"
    (fun value => typeIdFromUUID prefix value)
    (fun value =>
       let* r := typeIdToUUID value in
       Return (uuid r)).

(* ===================================================================== *)
(** ** Facts about strings *)
(* ===================================================================== *)

Section StringFacts.

Lemma app_nil (b : string) : EmptyString ++ b = b.
Proof. reflexivity. Qed.

Lemma app_cons (c : ascii) (a b : string) :
  String c a ++ b = String c (a ++ b).
Proof. reflexivity. Qed.

Lemma length_app (a b : string) :
  String.length (a ++ b) = (String.length a + String.length b)%nat.
Proof.
  induction a as [|c a IH]; [reflexivity|].
  rewrite app_cons. simpl. now rewrite IH.
Qed.

Lemma substring_full (b : string) :
  String.substring 0 (String.length b) b = b.
Proof. induction b as [|d b IHb]; simpl; [reflexivity | now rewrite IHb]. Qed.

Lemma substring_app_l (a b : string) :
  String.substring 0 (String.length a) (a ++ b) = a.
Proof.
  induction a as [|c a IH].
  - rewrite app_nil. now destruct b.
  - rewrite app_cons. simpl. now rewrite IH.
Qed.

Lemma substring_app_r (a b : string) :
  String.substring (String.length a) (String.length b) (a ++ b) = b.
Proof.
  induction a as [|c a IH].
  - rewrite app_nil. apply substring_full.
  - rewrite app_cons. simpl. exact IH.
Qed.

Lemma get_app_r (a b : string) (c : ascii) :
  String.get (String.length a) (a ++ String c b) = Some c.
Proof.
  induction a as [|d a IH]; [reflexivity|].
  rewrite app_cons. simpl. exact IH.
Qed.

Lemma prefix_app (a b : string) : String.prefix a (a ++ b) = true.
Proof.
  induction a as [|c a IH]; [now destruct b|].
  rewrite app_cons. simpl.
  destruct (ascii_dec c c) as [_|Hne]; [exact IH | now destruct Hne].
Qed.

Lemma length_removeAt (i : nat) (s : string) :
  (i < String.length s)%nat ->
  String.length (removeAt i s) = Nat.pred (String.length s).
Proof.
  revert i; induction s as [|c s IH]; intros i Hi; simpl in *; [lia|].
  destruct i as [|i]; simpl; [reflexivity|].
  rewrite IH by lia. lia.
Qed.

End StringFacts.


Lemma prefix_split (a s : string) :
  String.prefix a s = true -> exists t, s = a ++ t.
Proof.
  revert s; induction a as [|c a IH]; intros s H.
  - exists s. reflexivity.
  - destruct s as [|d s]; simpl in H; [discriminate|].
    destruct (ascii_dec c d) as [->|]; [|discriminate].
    destruct (IH s H) as [t ->]. exists t. reflexivity.
Qed.

Lemma app_inv_head_string (a b c : string) : a ++ b = a ++ c -> b = c.
Proof.
  induction a as [|x a IH]; [now rewrite !app_nil|].
  rewrite !app_cons. intros H. injection H as H. auto.
Qed.

Lemma compare_app (a b c : string) :
  String.compare (a ++ b) (a ++ c) = String.compare b c.
Proof.
  induction a as [|x a IH]; [now rewrite !app_nil|].
  rewrite !app_cons. cbn [String.compare].
  unfold Ascii.compare. now rewrite N.compare_refl.
Qed.

(** A text is what precedes position [k], the character there, and what
    follows. *)
Lemma split_at (k : nat) (s : string) (c : ascii) :
  String.get k s = Some c ->
  s = String.substring 0 k s
        ++ String c (String.substring (S k) (String.length s - S k) s).
Proof.
  revert k; induction s as [|d s IH]; intros k H; [now destruct k|].
  destruct k as [|k]; simpl in H.
  - injection H as ->. rewrite app_nil.
    replace (String.length (String c s) - 1)%nat with (String.length s)
      by (cbn [String.length]; lia).
    cbn [String.substring]. now rewrite substring_full.
  - replace (String.length (String d s) - S (S k))%nat
      with (String.length s - S k)%nat by (cbn [String.length]; lia).
    cbn [String.substring]. rewrite app_cons.
    f_equal. exact (IH k H).
Qed.

Lemma length_substring (n m : nat) (s : string) :
  (n + m <= String.length s)%nat ->
  String.length (String.substring n m s) = m.
Proof.
  revert n m; induction s as [|c s IH]; intros n m H; simpl in H.
  - assert (n = 0%nat) by lia. assert (m = 0%nat) by lia. now subst.
  - destruct n as [|n]; simpl.
    + destruct m as [|m]; [reflexivity|]. simpl. rewrite IH by lia. reflexivity.
    + apply IH. lia.
Qed.

Lemma app_assoc_string (a b c : string) : (a ++ b) ++ c = a ++ b ++ c.
Proof.
  induction a as [|x a IH]; [reflexivity|].
  rewrite !app_cons. now rewrite IH.
Qed.

Lemma substring_skip (a b : string) (k m : nat) :
  String.substring (String.length a + k) m (a ++ b) = String.substring k m b.
Proof.
  induction a as [|c a IH]; [reflexivity|].
  rewrite app_cons. simpl. exact IH.
Qed.

(* ===================================================================== *)
(** ** Facts about positional text *)
(* ===================================================================== *)

Section Positional.

Variable alpha : string.
Variable valueOf : ascii -> option Z.
Variable bits : Z.
Hypothesis bits_pos : 0 < bits.
Hypothesis value_symbol :
  forall d, 0 <= d < 2 ^ bits -> valueOf (symbolOf alpha d) = Some d.

Lemma digit_land (n : nat) (v : Z) :
  Z.land (Z.shiftr v (bits * Z.of_nat n)) (Z.ones bits) = digitAt bits n v.
Proof.
  unfold digitAt.
  rewrite Z.land_ones by lia.
  rewrite Z.shiftr_div_pow2 by lia.
  reflexivity.
Qed.

Lemma digitAt_range (n : nat) (v : Z) : 0 <= digitAt bits n v < 2 ^ bits.
Proof. unfold digitAt. apply Z.mod_pos_bound. apply Z.pow_pos_nonneg; lia. Qed.

Lemma pow_succ_bits (n : nat) :
  2 ^ (bits * Z.of_nat (S n)) = 2 ^ (bits * Z.of_nat n) * 2 ^ bits.
Proof.
  replace (bits * Z.of_nat (S n)) with (bits * Z.of_nat n + bits) by lia.
  apply Z.pow_add_r; lia.
Qed.

(** The value below position [S n] splits into the digit at position [n]
    and the value below it. *)
Lemma mod_split (n : nat) (v : Z) :
  v mod 2 ^ (bits * Z.of_nat (S n))
  = v mod 2 ^ (bits * Z.of_nat n) + 2 ^ (bits * Z.of_nat n) * digitAt bits n v.
Proof.
  rewrite pow_succ_bits. unfold digitAt.
  assert (0 < 2 ^ (bits * Z.of_nat n)) by (apply Z.pow_pos_nonneg; lia).
  assert (0 < 2 ^ bits) by (apply Z.pow_pos_nonneg; lia).
  apply Z.rem_mul_r; lia.
Qed.

Lemma length_encodeDigits (n : nat) (v : Z) :
  String.length (encodeDigits alpha bits n v) = n.
Proof. induction n as [|n IH]; simpl; [reflexivity | now rewrite IH]. Qed.

Lemma decode_encode_digits (n : nat) (v acc : Z) :
  decodeDigits valueOf bits acc (encodeDigits alpha bits n v)
  = Some (acc * 2 ^ (bits * Z.of_nat n) + v mod 2 ^ (bits * Z.of_nat n)).
Proof.
  revert acc; induction n as [|n IH]; intros acc.
  - simpl. rewrite Z.mul_0_r, Z.pow_0_r, Z.mod_1_r. f_equal. lia.
  - cbn [encodeDigits decodeDigits].
    rewrite digit_land, value_symbol by apply digitAt_range.
    rewrite IH, mod_split, pow_succ_bits.
    rewrite Z.shiftl_mul_pow2 by lia.
    f_equal. ring.
Qed.

(** Text order follows numeric order as soon as the symbols of the
    alphabet are listed in increasing order. *)
Hypothesis symbol_mono :
  forall d e, 0 <= d < e -> e < 2 ^ bits ->
    Ascii.compare (symbolOf alpha d) (symbolOf alpha e) = Lt.

Lemma encodeDigits_lt (n : nat) (v w : Z) :
  v mod 2 ^ (bits * Z.of_nat n) < w mod 2 ^ (bits * Z.of_nat n) ->
  String.compare (encodeDigits alpha bits n v) (encodeDigits alpha bits n w) = Lt.
Proof.
  induction n as [|n IH].
  - rewrite Z.mul_0_r, Z.pow_0_r, !Z.mod_1_r. lia.
  - rewrite !mod_split. intros Hlt.
    cbn [encodeDigits String.compare]. rewrite !digit_land.
    pose proof (digitAt_range n v) as Hv.
    pose proof (digitAt_range n w) as Hw.
    assert (Hp : 0 < 2 ^ (bits * Z.of_nat n)) by (apply Z.pow_pos_nonneg; lia).
    pose proof (Z.mod_pos_bound v _ Hp) as Hrv.
    pose proof (Z.mod_pos_bound w _ Hp) as Hrw.
    destruct (Z.lt_total (digitAt bits n v) (digitAt bits n w)) as [Hd|[Hd|Hd]].
    + rewrite symbol_mono by lia. reflexivity.
    + rewrite Hd in *.
      unfold Ascii.compare. rewrite N.compare_refl.
      apply IH. nia.
    + exfalso. nia.
Qed.

End Positional.

(** A property of the digits below [k], checked digit by digit. *)
Lemma below_forallb (k : nat) (f : Z -> bool) :
  forallb (fun i => f (Z.of_nat i)) (seq 0 k) = true ->
  forall d, 0 <= d < Z.of_nat k -> f d = true.
Proof.
  intros Hall d Hd.
  rewrite forallb_forall in Hall.
  specialize (Hall (Z.to_nat d)).
  rewrite Z2Nat.id in Hall by lia.
  apply Hall, in_seq. lia.
Qed.

(* ===================================================================== *)
(** ** Reading positional text back *)
(* ===================================================================== *)

Lemma indexOf_Some (c : ascii) (alpha : string) (d : Z) :
  indexOf c alpha = Some d ->
  0 <= d < Z.of_nat (String.length alpha)
  /\ String.get (Z.to_nat d) alpha = Some c.
Proof.
  revert d; induction alpha as [|a rest IH]; intros d H; simpl in H;
    [discriminate|].
  destruct (Ascii.eqb_spec a c) as [->|Hne].
  - injection H as <-. cbn [String.length]. split; [lia | reflexivity].
  - destruct (indexOf c rest) as [e|]; [|discriminate].
    injection H as <-. destruct (IH e eq_refl) as [Hr Hg].
    cbn [String.length]. split; [lia|].
    rewrite Z2Nat.inj_succ by lia. exact Hg.
Qed.

Section PositionalInverse.

Variable alpha : string.
Variable valueOf : ascii -> option Z.
Variable bits : Z.
Hypothesis bits_pos : 0 < bits.
Hypothesis value_range :
  forall c d, valueOf c = Some d -> 0 <= d < 2 ^ bits.

(** The value read from a text extends the accumulator by as many digits
    as the text has characters. *)
Lemma decodeDigits_bounds (s : string) (acc v : Z) :
  0 <= acc ->
  decodeDigits valueOf bits acc s = Some v ->
  acc * 2 ^ (bits * Z.of_nat (String.length s)) <= v
  < (acc + 1) * 2 ^ (bits * Z.of_nat (String.length s)).
Proof.
  revert acc; induction s as [|c s IH]; intros acc Hacc H.
  - simpl in H. injection H as <-. cbn [String.length].
    rewrite Z.mul_0_r, Z.pow_0_r. lia.
  - cbn [decodeDigits] in H.
    destruct (valueOf c) as [d|] eqn:Hc; [|discriminate].
    pose proof (value_range c d Hc) as Hd.
    rewrite Z.shiftl_mul_pow2 in H by lia.
    assert (Hp : 0 < 2 ^ bits) by (apply Z.pow_pos_nonneg; lia).
    apply IH in H; [|nia].
    cbn [String.length]. rewrite pow_succ_bits by exact bits_pos.
    assert (Hq : 0 < 2 ^ (bits * Z.of_nat (String.length s)))
      by (apply Z.pow_pos_nonneg; lia).
    nia.
Qed.

Hypothesis symbol_value :
  forall c d, valueOf c = Some d -> symbolOf alpha d = c.

(** Writing the value read from a text gives the text back. *)
Lemma encode_decode_digits (s : string) (acc v : Z) :
  0 <= acc ->
  decodeDigits valueOf bits acc s = Some v ->
  encodeDigits alpha bits (String.length s) v = s.
Proof.
  revert acc; induction s as [|c s IH]; intros acc Hacc H; [reflexivity|].
  cbn [decodeDigits] in H.
  destruct (valueOf c) as [d|] eqn:Hc; [|discriminate].
  pose proof (value_range c d Hc) as Hd.
  rewrite Z.shiftl_mul_pow2 in H by lia.
  assert (Hp : 0 < 2 ^ bits) by (apply Z.pow_pos_nonneg; lia).
  assert (Hacc' : 0 <= acc * 2 ^ bits + d) by nia.
  cbn [String.length encodeDigits].
  rewrite (IH _ Hacc' H). f_equal.
  rewrite digit_land by exact bits_pos. unfold digitAt.
  pose proof (decodeDigits_bounds s _ v Hacc' H) as Hb.
  assert (Hq : 0 < 2 ^ (bits * Z.of_nat (String.length s)))
    by (apply Z.pow_pos_nonneg; lia).
  replace (v / 2 ^ (bits * Z.of_nat (String.length s)))
    with (acc * 2 ^ bits + d).
  2:{ apply Z.div_unique with
        (r := v - (acc * 2 ^ bits + d) * 2 ^ (bits * Z.of_nat (String.length s)));
        [left; lia | ring]. }
  rewrite Z.add_comm, Z.mod_add by lia.
  rewrite Z.mod_small by lia.
  apply symbol_value, Hc.
Qed.

End PositionalInverse.

(* ===================================================================== *)
(** ** Facts about the suffix codec and the UUID text *)
(* ===================================================================== *)

Section Codec.

Lemma suffixValue_symbol (d : Z) :
  0 <= d < 2 ^ 5 -> suffixValue (symbolOf alphabet d) = Some d.
Proof.
  intros Hd.
  pose proof (below_forallb 32
    (fun d => match suffixValue (symbolOf alphabet d) with
              | Some e => Z.eqb e d
              | None => false
              end) eq_refl d Hd) as H.
  simpl in H.
  destruct (suffixValue (symbolOf alphabet d)) as [e|]; [|discriminate].
  apply Z.eqb_eq in H. now subst.
Qed.

Lemma hexValue_symbol (d : Z) :
  0 <= d < 2 ^ 4 -> hexValue (symbolOf hexAlphabet d) = Some d.
Proof.
  intros Hd.
  pose proof (below_forallb 16
    (fun d => match hexValue (symbolOf hexAlphabet d) with
              | Some e => Z.eqb e d
              | None => false
              end) eq_refl d Hd) as H.
  simpl in H.
  destruct (hexValue (symbolOf hexAlphabet d)) as [e|]; [|discriminate].
  apply Z.eqb_eq in H. now subst.
Qed.

Lemma alphabet_increasing (d e : Z) :
  0 <= d < e -> e < 2 ^ 5 ->
  Ascii.compare (symbolOf alphabet d) (symbolOf alphabet e) = Lt.
Proof.
  intros Hd He.
  pose proof (below_forallb 32
    (fun d => forallb (fun j => (negb (Z.ltb d (Z.of_nat j)) || symbolLt d (Z.of_nat j))%bool)
                (seq 0 32)) eq_refl d ltac:(lia)) as H.
  simpl in H.
  pose proof (below_forallb 32 (fun e => (negb (Z.ltb d e) || symbolLt d e)%bool) H e ltac:(lia)) as H'.
  simpl in H'.
  destruct (Z.ltb_spec d e); [|lia].
  simpl in H'. unfold symbolLt in H'.
  now destruct (Ascii.compare (symbolOf alphabet d) (symbolOf alphabet e)).
Qed.

Lemma length_encode (v : Z) : String.length (encode v) = suffixLength.
Proof. apply length_encodeDigits. Qed.

Lemma decode_encode (v : Z) :
  0 <= v < 2 ^ 128 -> decode (encode v) = Return v.
Proof.
  intros Hv. unfold decode.
  rewrite length_encode, Nat.eqb_refl. simpl negb. cbv iota.
  unfold encode.
  rewrite (decode_encode_digits alphabet suffixValue 5 ltac:(lia) suffixValue_symbol).
  rewrite Z.mul_0_l, Z.add_0_l.
  rewrite Z.mod_small by (change (5 * Z.of_nat suffixLength) with 130; lia).
  destruct (Z.leb_spec (2 ^ 128) v); [lia | reflexivity].
Qed.

Lemma decode_length (suf : string) (v : Z) :
  decode suf = Return v -> String.length suf = suffixLength.
Proof.
  unfold decode.
  destruct (Nat.eqb_spec (String.length suf) suffixLength) as [H|H]; simpl;
    [now intros _ | discriminate].
Qed.

Lemma suffixValue_range (c : ascii) (d : Z) :
  suffixValue c = Some d -> 0 <= d < 2 ^ 5.
Proof. intros H. apply indexOf_Some in H as [H _]. exact H. Qed.

Lemma suffixValue_symbolOf (c : ascii) (d : Z) :
  suffixValue c = Some d -> symbolOf alphabet d = c.
Proof.
  intros H. apply indexOf_Some in H as [_ H].
  unfold symbolOf. now rewrite H.
Qed.

Lemma hexValue_range (c : ascii) (d : Z) :
  hexValue c = Some d -> 0 <= d < 2 ^ 4.
Proof. intros H. apply indexOf_Some in H as [H _]. exact H. Qed.

(** What a suffix that decodes looks like: 26 characters that are the
    encoding of the 128-bit value read from them. *)
Lemma decode_Return (suf : string) (v : Z) :
  decode suf = Return v ->
  String.length suf = suffixLength /\ 0 <= v < 2 ^ 128 /\ encode v = suf.
Proof.
  intros H. pose proof (decode_length suf v H) as Hlen.
  unfold decode in H. rewrite Hlen, Nat.eqb_refl in H. cbn [negb] in H.
  destruct (decodeDigits suffixValue 5 0 suf) as [w|] eqn:Hw; [|discriminate].
  destruct (Z.leb_spec (2 ^ 128) w); [discriminate|].
  injection H as ->.
  pose proof (decodeDigits_bounds suffixValue 5 ltac:(lia) suffixValue_range
                suf 0 v ltac:(lia) Hw) as Hb.
  split; [exact Hlen|]. split; [lia|].
  unfold encode. rewrite <- Hlen.
  exact (encode_decode_digits alphabet suffixValue 5 ltac:(lia)
           suffixValue_range suffixValue_symbolOf suf 0 v ltac:(lia) Hw).
Qed.

(** The digits of [n + m] positions are those of the upper [n] followed
    by those of the lower [m]. *)
Lemma encodeDigits_app (alpha : string) (bits : Z) (n m : nat) (v : Z) :
  0 <= bits ->
  encodeDigits alpha bits (n + m) v
  = encodeDigits alpha bits n (Z.shiftr v (bits * Z.of_nat m))
      ++ encodeDigits alpha bits m v.
Proof.
  intros Hb. induction n as [|n IH]; [reflexivity|].
  cbn [Nat.add encodeDigits]. rewrite app_cons, IH. f_equal. f_equal. f_equal.
  rewrite Z.shiftr_shiftr by lia. f_equal. lia.
Qed.

Lemma lowerHexDigit_facts (c : ascii) :
  isLowerHexDigit c = true ->
  isHexChar c = true
  /\ isWhiteSpace c = false
  /\ Ascii.eqb c "-" = false /\ Ascii.eqb c "+" = false
  /\ Ascii.eqb c "x" = false /\ Ascii.eqb c "X" = false.
Proof.
  unfold isLowerHexDigit.
  destruct (indexOf c hexAlphabet) as [d|] eqn:Hd; [intros _ | discriminate].
  apply indexOf_Some in Hd as [Hr Hg].
  assert (Hc : c = symbolOf hexAlphabet d) by (unfold symbolOf; now rewrite Hg).
  subst c.
  pose proof (below_forallb 16
    (fun d => let c := symbolOf hexAlphabet d in
       (isHexChar c && negb (isWhiteSpace c)
        && negb (Ascii.eqb c "-") && negb (Ascii.eqb c "+")
        && negb (Ascii.eqb c "x") && negb (Ascii.eqb c "X"))%bool)
    eq_refl d Hr) as H.
  cbv zeta in H. rewrite !andb_true_iff, !negb_true_iff in H. tauto.
Qed.

Lemma symbol_lowerHexDigit (d : Z) :
  0 <= d < 2 ^ 4 -> isLowerHexDigit (symbolOf hexAlphabet d) = true.
Proof.
  intros Hd.
  exact (below_forallb 16 (fun d => isLowerHexDigit (symbolOf hexAlphabet d))
           eq_refl d Hd).
Qed.

Lemma encodeDigits_lowerHex (n : nat) (v : Z) :
  allChars isLowerHexDigit (encodeDigits hexAlphabet 4 n v) = true.
Proof.
  induction n as [|n IH]; [reflexivity|].
  cbn [encodeDigits allChars]. rewrite IH, andb_true_r.
  rewrite digit_land by lia. apply symbol_lowerHexDigit, digitAt_range. lia.
Qed.

Lemma hexDigitsPrefix_all (s : string) :
  allChars isLowerHexDigit s = true -> hexDigitsPrefix s = s.
Proof.
  induction s as [|c s IH]; [reflexivity|].
  cbn [allChars hexDigitsPrefix]. intros H.
  apply andb_true_iff in H as [Hc Hs].
  destruct (lowerHexDigit_facts c Hc) as (-> & _). now rewrite IH.
Qed.

(** On a non-empty run of the digits that [stringify] writes, [parseInt]
    reads the whole run. *)
Lemma parseInt16_digits (s : string) :
  s <> EmptyString ->
  allChars isLowerHexDigit s = true ->
  parseInt16 s = option_map (Z.mul 1) (decodeDigits hexValue 4 0 s).
Proof.
  intros Hne Hall. unfold parseInt16.
  destruct s as [|c r]; [now destruct Hne|].
  pose proof Hall as Hall'. cbn [allChars] in Hall'.
  apply andb_true_iff in Hall' as [Hc Hr].
  destruct (lowerHexDigit_facts c Hc) as (_ & Hws & Hminus & Hplus & _).
  cbn [trimStart]. rewrite Hws, Hminus, Hplus. cbn [fst snd].
  assert (Hs3 : match r with
                | String b r' =>
                    if (Ascii.eqb c "0" && (Ascii.eqb b "x" || Ascii.eqb b "X"))%bool
                    then r' else String c r
                | EmptyString => String c r
                end = String c r).
  { destruct r as [|b r']; [reflexivity|].
    cbn [allChars] in Hr. apply andb_true_iff in Hr as [Hb _].
    destruct (lowerHexDigit_facts b Hb) as (_ & _ & _ & _ & -> & ->).
    now rewrite andb_false_r. }
  change (match String c r with
          | String a (String b r') =>
              if (Ascii.eqb a "0" && (Ascii.eqb b "x" || Ascii.eqb b "X"))%bool
              then r' else String c r
          | _ => String c r
          end)
    with (match r with
          | String b r' =>
              if (Ascii.eqb c "0" && (Ascii.eqb b "x" || Ascii.eqb b "X"))%bool
              then r' else String c r
          | EmptyString => String c r
          end).
  rewrite Hs3, (hexDigitsPrefix_all _ Hall). reflexivity.
Qed.

Lemma parseInt16_encodeDigits (n : nat) (x : Z) :
  parseInt16 (encodeDigits hexAlphabet 4 (S n) x)
  = Some (x mod 2 ^ (4 * Z.of_nat (S n))).
Proof.
  rewrite parseInt16_digits; [|discriminate | apply encodeDigits_lowerHex].
  rewrite (decode_encode_digits hexAlphabet hexValue 4 ltac:(lia) hexValue_symbol).
  cbn [option_map]. f_equal. lia.
Qed.

(** The layout of a UUID text written from five groups of 8, 4, 4, 4 and
    12 characters, and what the fixed positions read back from it. *)
Lemma dashed_groups (A B C D E : string) :
  String.length A = 8%nat -> String.length B = 4%nat ->
  String.length C = 4%nat -> String.length D = 4%nat ->
  String.length E = 12%nat ->
  let h := A ++ B ++ C ++ D ++ E in
  let u := slice 0 8 h ++ "-" ++ slice 8 12 h ++ "-" ++ slice 12 16 h ++ "-"
             ++ slice 16 20 h ++ "-" ++ slice 20 32 h in
  (slice 0 8 u = A /\ slice 9 13 u = B /\ slice 14 18 u = C
   /\ slice 19 23 u = D /\ slice 24 36 u = E)
  /\ uuidShape u = true
  /\ uuidGroups u = h
  /\ (forall f, charSat 14 f u = charSat 0 f C)
  /\ (forall f, charSat 19 f u = charSat 0 f D).
Proof.
  intros HA HB HC HD HE.
  do 8 (destruct A as [|? A]; [discriminate HA|]).
  destruct A; [|discriminate HA].
  do 4 (destruct B as [|? B]; [discriminate HB|]).
  destruct B; [|discriminate HB].
  do 4 (destruct C as [|? C]; [discriminate HC|]).
  destruct C; [|discriminate HC].
  do 4 (destruct D as [|? D]; [discriminate HD|]).
  destruct D; [|discriminate HD].
  do 12 (destruct E as [|? E]; [discriminate HE|]).
  destruct E; [|discriminate HE].
  repeat split; reflexivity.
Qed.

(** The 32 digits of a value, group by group. *)
Lemma hex32_groups (v : Z) :
  encodeDigits hexAlphabet 4 32 v
  = encodeDigits hexAlphabet 4 8 (Z.shiftr v 96)
      ++ encodeDigits hexAlphabet 4 4 (Z.shiftr v 80)
      ++ encodeDigits hexAlphabet 4 4 (Z.shiftr v 64)
      ++ encodeDigits hexAlphabet 4 4 (Z.shiftr v 48)
      ++ encodeDigits hexAlphabet 4 12 v.
Proof.
  pose proof (encodeDigits_app hexAlphabet 4 8 24 v ltac:(lia)) as H1.
  pose proof (encodeDigits_app hexAlphabet 4 4 20 v ltac:(lia)) as H2.
  pose proof (encodeDigits_app hexAlphabet 4 4 16 v ltac:(lia)) as H3.
  pose proof (encodeDigits_app hexAlphabet 4 4 12 v ltac:(lia)) as H4.
  change (8 + 24)%nat with 32%nat in H1. change (4 + 20)%nat with 24%nat in H2.
  change (4 + 16)%nat with 20%nat in H3. change (4 + 12)%nat with 16%nat in H4.
  change (4 * Z.of_nat 24) with 96 in H1. change (4 * Z.of_nat 20) with 80 in H2.
  change (4 * Z.of_nat 16) with 64 in H3. change (4 * Z.of_nat 12) with 48 in H4.
  now rewrite H1, H2, H3, H4.
Qed.

Lemma stringify_groups (v : Z) :
  let u := stringify v in
  (slice 0 8 u = encodeDigits hexAlphabet 4 8 (Z.shiftr v 96)
   /\ slice 9 13 u = encodeDigits hexAlphabet 4 4 (Z.shiftr v 80)
   /\ slice 14 18 u = encodeDigits hexAlphabet 4 4 (Z.shiftr v 64)
   /\ slice 19 23 u = encodeDigits hexAlphabet 4 4 (Z.shiftr v 48)
   /\ slice 24 36 u = encodeDigits hexAlphabet 4 12 v)
  /\ uuidShape u = true
  /\ uuidGroups u = encodeDigits hexAlphabet 4 32 v
  /\ (forall f, charSat 14 f u
                = charSat 0 f (encodeDigits hexAlphabet 4 4 (Z.shiftr v 64)))
  /\ (forall f, charSat 19 f u
                = charSat 0 f (encodeDigits hexAlphabet 4 4 (Z.shiftr v 48))).
Proof.
  unfold stringify. cbv zeta. rewrite hex32_groups.
  apply dashed_groups; apply length_encodeDigits.
Qed.

(** The bytes that [parseUUID] takes from a group are those of its value. *)
Lemma bytes_of_32 (z : Z) :
  0 <= z < 2 ^ 32 ->
  ((toUint8 (Z.shiftr (toUint32 (Some z)) 24) * 256
    + toUint8 (Z.shiftr (toUint32 (Some z)) 16)) * 256
   + toUint8 (Z.shiftr (toUint32 (Some z)) 8)) * 256
  + toUint8 (toInteger (Some z)) = z.
Proof.
  intros Hz. unfold toUint8, toUint32, toInteger.
  rewrite !Z.shiftr_div_pow2 by lia.
  change (2 ^ 32) with 4294967296 in *. change (2 ^ 24) with 16777216.
  change (2 ^ 16) with 65536. change (2 ^ 8) with 256.
  Z.div_mod_to_equations. lia.
Qed.

Lemma bytes_of_16 (z : Z) :
  0 <= z < 2 ^ 16 ->
  toUint8 (Z.shiftr (toUint32 (Some z)) 8) * 256 + toUint8 (toInteger (Some z))
  = z.
Proof.
  intros Hz. unfold toUint8, toUint32, toInteger.
  rewrite !Z.shiftr_div_pow2 by lia.
  change (2 ^ 32) with 4294967296 in *. change (2 ^ 16) with 65536 in *.
  change (2 ^ 8) with 256.
  Z.div_mod_to_equations. lia.
Qed.

Lemma bytes_of_48 (z : Z) :
  0 <= z < 2 ^ 48 ->
  ((((toUint8 (Z.quot (toInteger (Some z)) (2 ^ 40)) * 256
      + toUint8 (Z.quot (toInteger (Some z)) (2 ^ 32))) * 256
     + toUint8 (Z.shiftr (toUint32 (Some z)) 24)) * 256
    + toUint8 (Z.shiftr (toUint32 (Some z)) 16)) * 256
   + toUint8 (Z.shiftr (toUint32 (Some z)) 8)) * 256
  + toUint8 (toInteger (Some z)) = z.
Proof.
  intros Hz. unfold toUint8, toUint32, toInteger.
  rewrite !Z.quot_div_nonneg by lia.
  rewrite !Z.shiftr_div_pow2 by lia.
  change (2 ^ 48) with 281474976710656 in *.
  change (2 ^ 40) with 1099511627776. change (2 ^ 32) with 4294967296.
  change (2 ^ 24) with 16777216. change (2 ^ 16) with 65536.
  change (2 ^ 8) with 256.
  Z.div_mod_to_equations. lia.
Qed.

Lemma value_of_groups (v : Z) :
  0 <= v < 2 ^ 128 ->
  (((Z.shiftr v 96 mod 2 ^ 32 * 2 ^ 16 + Z.shiftr v 80 mod 2 ^ 16) * 2 ^ 16
    + Z.shiftr v 64 mod 2 ^ 16) * 2 ^ 16
   + Z.shiftr v 48 mod 2 ^ 16) * 2 ^ 48
  + v mod 2 ^ 48 = v.
Proof.
  intros Hv. rewrite !Z.shiftr_div_pow2 by lia.
  change (2 ^ 128) with 340282366920938463463374607431768211456 in Hv.
  change (2 ^ 96) with 79228162514264337593543950336.
  change (2 ^ 80) with 1208925819614629174706176.
  change (2 ^ 64) with 18446744073709551616.
  change (2 ^ 48) with 281474976710656.
  change (2 ^ 32) with 4294967296. change (2 ^ 16) with 65536.
  Z.div_mod_to_equations. lia.
Qed.

(** Reading the UUID text of a 128-bit value gives the value back. *)
Lemma parseUUID_stringify (v : Z) :
  0 <= v < 2 ^ 128 -> parseUUID (stringify v) = v.
Proof.
  intros Hv. unfold parseUUID.
  destruct (stringify_groups v) as ((-> & -> & -> & -> & ->) & _).
  rewrite !parseInt16_encodeDigits.
  change (4 * Z.of_nat 8) with 32. change (4 * Z.of_nat 4) with 16.
  change (4 * Z.of_nat 12) with 48.
  cbv zeta. cbn [fold_left].
  pose proof (bytes_of_32 (Z.shiftr v 96 mod 2 ^ 32)
                ltac:(apply Z.mod_pos_bound; lia)) as H1.
  pose proof (bytes_of_16 (Z.shiftr v 80 mod 2 ^ 16)
                ltac:(apply Z.mod_pos_bound; lia)) as H2.
  pose proof (bytes_of_16 (Z.shiftr v 64 mod 2 ^ 16)
                ltac:(apply Z.mod_pos_bound; lia)) as H3.
  pose proof (bytes_of_16 (Z.shiftr v 48 mod 2 ^ 16)
                ltac:(apply Z.mod_pos_bound; lia)) as H4.
  pose proof (bytes_of_48 (v mod 2 ^ 48)
                ltac:(apply Z.mod_pos_bound; lia)) as H5.
  pose proof (value_of_groups v Hv) as Hval.
  revert H1 H2 H3 H4 H5 Hval.
  generalize (Z.shiftr v 96 mod 2 ^ 32) (Z.shiftr v 80 mod 2 ^ 16)
             (Z.shiftr v 64 mod 2 ^ 16) (Z.shiftr v 48 mod 2 ^ 16)
             (v mod 2 ^ 48).
  intros x1 x2 x3 x4 x5.
  generalize (toUint8 (Z.shiftr (toUint32 (Some x1)) 24))
             (toUint8 (Z.shiftr (toUint32 (Some x1)) 16))
             (toUint8 (Z.shiftr (toUint32 (Some x1)) 8))
             (toUint8 (toInteger (Some x1)))
             (toUint8 (Z.shiftr (toUint32 (Some x2)) 8))
             (toUint8 (toInteger (Some x2)))
             (toUint8 (Z.shiftr (toUint32 (Some x3)) 8))
             (toUint8 (toInteger (Some x3)))
             (toUint8 (Z.shiftr (toUint32 (Some x4)) 8))
             (toUint8 (toInteger (Some x4)))
             (toUint8 (Z.quot (toInteger (Some x5)) (2 ^ 40)))
             (toUint8 (Z.quot (toInteger (Some x5)) (2 ^ 32)))
             (toUint8 (Z.shiftr (toUint32 (Some x5)) 24))
             (toUint8 (Z.shiftr (toUint32 (Some x5)) 16))
             (toUint8 (Z.shiftr (toUint32 (Some x5)) 8))
             (toUint8 (toInteger (Some x5))).
  change (2 ^ 16) with 65536. change (2 ^ 48) with 281474976710656.
  intros. lia.
Qed.

(** Whatever the text, [parseUUID] yields a 128-bit value. *)
Lemma parseUUID_range (u : string) : 0 <= parseUUID u < 2 ^ 128.
Proof.
  unfold parseUUID. cbv zeta. cbn [fold_left]. unfold toUint8.
  change (2 ^ 128) with 340282366920938463463374607431768211456.
  repeat match goal with
  | |- context [?a mod 256] =>
      let H := fresh in
      pose proof (Z.mod_pos_bound a 256 ltac:(lia)) as H;
      generalize dependent (a mod 256); intros
  end.
  lia.
Qed.

Lemma digitAt_shiftr (bits : Z) (n m : nat) (v : Z) :
  0 < bits ->
  digitAt bits n (Z.shiftr v (bits * Z.of_nat m)) = digitAt bits (n + m) v.
Proof.
  intros Hb. unfold digitAt.
  rewrite Z.shiftr_div_pow2 by lia.
  assert (Hm : 0 < 2 ^ (bits * Z.of_nat m)) by (apply Z.pow_pos_nonneg; lia).
  assert (Hn : 0 < 2 ^ (bits * Z.of_nat n)) by (apply Z.pow_pos_nonneg; lia).
  rewrite Z.div_div by lia.
  rewrite <- Z.pow_add_r by lia.
  do 3 f_equal. lia.
Qed.

Lemma allChars_impl (f g : ascii -> bool) (s : string) :
  (forall c, f c = true -> g c = true) ->
  allChars f s = true -> allChars g s = true.
Proof.
  intros Hfg. induction s as [|c s IH]; [reflexivity|].
  cbn [allChars]. rewrite !andb_true_iff. intros [Hc Hs]. auto.
Qed.

Lemma versionChar_symbol (d : Z) :
  1 <= d <= 8 -> versionChar (symbolOf hexAlphabet d) = true.
Proof.
  intros Hd.
  pose proof (below_forallb 16
    (fun d => (negb ((1 <=? d)%Z && (d <=? 8)%Z)
               || versionChar (symbolOf hexAlphabet d))%bool)
    eq_refl d ltac:(lia)) as H.
  cbv beta in H.
  destruct (Z.leb_spec 1 d); [|lia]. destruct (Z.leb_spec d 8); [|lia].
  exact H.
Qed.

Lemma variantChar_symbol (d : Z) :
  8 <= d <= 11 -> variantChar (symbolOf hexAlphabet d) = true.
Proof.
  intros Hd.
  pose proof (below_forallb 16
    (fun d => (negb ((8 <=? d)%Z && (d <=? 11)%Z)
               || variantChar (symbolOf hexAlphabet d))%bool)
    eq_refl d ltac:(lia)) as H.
  cbv beta in H.
  destruct (Z.leb_spec 8 d); [|lia]. destruct (Z.leb_spec d 11); [|lia].
  exact H.
Qed.

(** The UUID text of a value with a version digit from 1 to 8 and a
    variant digit from 8 to b passes the validity test. *)
Lemma uuidValidate_stringify (v : Z) :
  1 <= digitAt 4 19 v <= 8 ->
  8 <= digitAt 4 15 v <= 11 ->
  uuidValidate (stringify v) = true.
Proof.
  intros Hver Hvar. unfold uuidValidate.
  destruct (stringify_groups v) as (_ & -> & -> & -> & ->).
  rewrite (allChars_impl isLowerHexDigit isHexChar _
             (fun c H => proj1 (lowerHexDigit_facts c H))
             (encodeDigits_lowerHex 32 v)).
  cbn [encodeDigits charSat String.get andb].
  rewrite !digit_land by lia.
  pose proof (digitAt_shiftr 4 3 16 v ltac:(lia)) as H64.
  pose proof (digitAt_shiftr 4 3 12 v ltac:(lia)) as H48.
  change (4 * Z.of_nat 16) with 64 in H64.
  change (4 * Z.of_nat 12) with 48 in H48.
  change (4 * Z.of_nat 3) with 12.
  cbn [Nat.add] in H64, H48.
  change (Z.of_nat 3) with 3 in *.
  rewrite H64, H48.
  now rewrite versionChar_symbol, variantChar_symbol.
Qed.

Lemma isUUIDv7_valid (v : Z) :
  isUUIDv7 v = true -> uuidValidate (stringify v) = true.
Proof.
  unfold isUUIDv7. rewrite andb_true_iff, !Z.eqb_eq. intros [Hver Hvar].
  apply uuidValidate_stringify; [lia|].
  unfold digitAt in *.
  change (4 * Z.of_nat 15) with 60. change (2 * Z.of_nat 31) with 62 in Hvar.
  change (2 ^ 62) with (2 ^ 60 * 4) in Hvar.
  rewrite <- Z.div_div in Hvar by (cbv; congruence || lia).
  change (2 ^ 4) with 16. change (2 ^ 2) with 4 in Hvar.
  clear Hver. set (q := v / 2 ^ 60) in *. clearbody q.
  Z.div_mod_to_equations. lia.
Qed.

End Codec.

(* ===================================================================== *)
(** ** Facts about the identifier codec *)
(* ===================================================================== *)

Section Identifier.

Lemma format_nonempty (p suf : string) :
  p <> EmptyString -> format p suf = p ++ "_" ++ suf.
Proof. now destruct p. Qed.

Lemma decodeDigits_Some_all (valueOf : ascii -> option Z) (bits : Z)
    (s : string) (acc v : Z) :
  decodeDigits valueOf bits acc s = Some v ->
  allChars (fun c => bool_decide (is_Some (valueOf c))) s = true.
Proof.
  revert acc; induction s as [|c s IH]; intros acc H; [reflexivity|].
  cbn [decodeDigits] in H. cbn [allChars].
  destruct (valueOf c) as [d|]; [|discriminate].
  rewrite (IH _ H). reflexivity.
Qed.

Lemma lastIndexOf_None (c : ascii) (s : string) :
  allChars (fun d => negb (Ascii.eqb d c)) s = true ->
  lastIndexOf c s = None.
Proof.
  induction s as [|d s IH]; [reflexivity|].
  cbn [allChars lastIndexOf]. rewrite andb_true_iff, negb_true_iff.
  intros [Hd Hs]. now rewrite (IH Hs), Hd.
Qed.

(** A suffix that decodes holds no underscore. *)
Lemma decode_no_underscore (suf : string) (v : Z) :
  decode suf = Return v -> lastIndexOf "_" suf = None.
Proof.
  unfold decode. destruct (negb _); [discriminate|].
  destruct (decodeDigits suffixValue 5 0 suf) as [w|] eqn:Hw; [|discriminate].
  intros _. apply lastIndexOf_None.
  apply (allChars_impl (fun c => bool_decide (is_Some (suffixValue c)))).
  - intros c H. destruct (Ascii.eqb_spec c "_") as [->|]; [|reflexivity].
    vm_compute in H. discriminate H.
  - exact (decodeDigits_Some_all _ _ _ _ _ Hw).
Qed.

Lemma lastIndexOf_app (c : ascii) (p suf : string) :
  lastIndexOf c suf = None ->
  lastIndexOf c (p ++ String c suf) = Some (String.length p).
Proof.
  intros Hsuf. induction p as [|d p IH].
  - rewrite app_nil. cbn [lastIndexOf String.length].
    now rewrite Hsuf, Ascii.eqb_refl.
  - rewrite app_cons. cbn [lastIndexOf String.length]. now rewrite IH.
Qed.

Lemma lastIndexOf_get (c : ascii) (s : string) (i : nat) :
  lastIndexOf c s = Some i -> String.get i s = Some c.
Proof.
  revert i; induction s as [|d s IH]; intros i H; [discriminate|].
  cbn [lastIndexOf] in H.
  destruct (lastIndexOf c s) as [j|].
  - injection H as <-. cbn [String.get]. now apply IH.
  - destruct (Ascii.eqb_spec d c) as [->|]; [|discriminate].
    now injection H as <-.
Qed.

Lemma substringFrom_app (p suf : string) (c : ascii) :
  substringFrom (S (String.length p)) (p ++ String c suf) = suf.
Proof.
  unfold substringFrom. rewrite length_app. cbn [String.length].
  replace (S (String.length p)) with (String.length p + 1)%nat by lia.
  rewrite substring_skip.
  replace (String.length p + S (String.length suf) - (String.length p + 1))%nat
    with (String.length suf) by lia.
  cbn [String.substring]. apply substring_full.
Qed.

(** Taking apart what [format] has put together. *)
Lemma getType_format (p suf : string) (v : Z) :
  decode suf = Return v -> getType (format p suf) = p.
Proof.
  intros Hdec. pose proof (decode_no_underscore suf v Hdec) as Hno.
  unfold getType. destruct p as [|c p].
  - cbn [format]. now rewrite Hno.
  - rewrite format_nonempty by discriminate.
    change ("_" ++ suf) with (String "_" suf).
    rewrite (lastIndexOf_app _ _ _ Hno). apply substring_app_l.
Qed.

Lemma getSuffix_format (p suf : string) (v : Z) :
  decode suf = Return v -> getSuffix (format p suf) = suf.
Proof.
  intros Hdec. pose proof (decode_no_underscore suf v Hdec) as Hno.
  unfold getSuffix. destruct p as [|c p].
  - cbn [format]. now rewrite Hno.
  - rewrite format_nonempty by discriminate.
    change ("_" ++ suf) with (String "_" suf).
    rewrite (lastIndexOf_app _ _ _ Hno). apply substringFrom_app.
Qed.

Lemma typeidUnboxed_ok (p suf : string) (v : Z) :
  isValidPrefix p = true ->
  decode suf = Return v ->
  typeidUnboxed p suf = Return (format p suf).
Proof.
  intros Hp Hdec. unfold typeidUnboxed. now rewrite Hp, Hdec.
Qed.

Lemma typeidUnboxed_Return (p suf r : string) :
  typeidUnboxed p suf = Return r ->
  isValidPrefix p = true
  /\ (exists v, decode suf = Return v)
  /\ r = format p suf.
Proof.
  unfold typeidUnboxed.
  destruct (isValidPrefix p); [|discriminate]. cbn [negb].
  destruct (decode suf) as [v|e]; [|discriminate].
  cbn [bind]. intros H. injection H as <-. eauto.
Qed.

Lemma newTypeID_ok (p suf : string) (v : Z) :
  isValidPrefix p = true ->
  decode suf = Return v ->
  newTypeID p suf = Return (mkTypeID p suf).
Proof.
  intros Hp Hdec. unfold newTypeID.
  rewrite (typeidUnboxed_ok p suf v Hp Hdec). cbn [bind].
  now rewrite (getType_format p suf v Hdec), (getSuffix_format p suf v Hdec).
Qed.

Lemma decode_nonempty (suf : string) (v : Z) :
  decode suf = Return v -> String.eqb suf EmptyString = false.
Proof.
  intros H. apply decode_length in H. now destruct suf.
Qed.

Lemma fromString_format (p suf : string) (v : Z) :
  isValidPrefix p = true ->
  decode suf = Return v ->
  fromString (format p suf) = Return (format p suf).
Proof.
  intros Hp Hdec. pose proof (decode_no_underscore suf v Hdec) as Hno.
  unfold fromString. destruct p as [|c p].
  - cbn [format]. rewrite Hno. cbn [bind fst snd].
    rewrite (decode_nonempty suf v Hdec).
    exact (typeidUnboxed_ok EmptyString suf v Hp Hdec).
  - rewrite format_nonempty by discriminate.
    change ("_" ++ suf) with (String "_" suf).
    rewrite (lastIndexOf_app _ _ _ Hno), substring_app_l, substringFrom_app.
    cbn [String.eqb bind fst snd].
    rewrite (decode_nonempty suf v Hdec).
    rewrite (typeidUnboxed_ok _ suf v Hp Hdec).
    now rewrite format_nonempty by discriminate.
Qed.

Lemma TypeID_fromString_format (p suf : string) (v : Z) :
  isValidPrefix p = true ->
  decode suf = Return v ->
  TypeID_fromString (format p suf) = Return (mkTypeID p suf).
Proof.
  intros Hp Hdec. unfold TypeID_fromString.
  rewrite (fromString_format p suf v Hp Hdec). cbn [bind].
  rewrite (getType_format p suf v Hdec), (getSuffix_format p suf v Hdec).
  exact (newTypeID_ok p suf v Hp Hdec).
Qed.

(** What [fromString] accepts: exactly what [format] writes from a well
    formed prefix and a suffix that decodes. *)
Lemma fromString_Return (s r : string) :
  fromString s = Return r ->
  exists p suf v,
    s = format p suf /\ r = s
    /\ isValidPrefix p = true /\ decode suf = Return v.
Proof.
  unfold fromString.
  destruct (lastIndexOf "_" s) as [i|] eqn:Hi.
  - destruct (String.eqb_spec (String.substring 0 i s) EmptyString) as [|Hp];
      [discriminate|].
    cbn [bind fst snd].
    destruct (String.eqb (substringFrom (S i) s) EmptyString); [discriminate|].
    intros H. apply typeidUnboxed_Return in H as (Hvalid & [v Hdec] & ->).
    exists (String.substring 0 i s), (substringFrom (S i) s), v.
    rewrite format_nonempty by exact Hp.
    pose proof (split_at i s _ (lastIndexOf_get _ _ _ Hi)) as Hs.
    unfold substringFrom. change ("_" ++ ?x) with (String "_" x).
    rewrite <- Hs. auto.
  - cbn [bind fst snd].
    destruct (String.eqb s EmptyString); [discriminate|].
    intros H. apply typeidUnboxed_Return in H as (Hvalid & [v Hdec] & ->).
    exists EmptyString, s, v. auto.
Qed.

Lemma TypeID_fromString_Return (s : string) (id : TypeID) :
  TypeID_fromString s = Return id ->
  exists p suf v,
    s = format p suf /\ id = mkTypeID p suf
    /\ isValidPrefix p = true /\ decode suf = Return v.
Proof.
  unfold TypeID_fromString.
  destruct (fromString s) as [r|e] eqn:Hr; [|discriminate].
  apply fromString_Return in Hr as (p & suf & v & -> & -> & Hp & Hdec).
  cbn [bind].
  rewrite (getType_format p suf v Hdec), (getSuffix_format p suf v Hdec).
  rewrite (newTypeID_ok p suf v Hp Hdec).
  intros H. injection H as <-. eauto 7.
Qed.

Lemma toUUID_format (p suf : string) (v : Z) :
  decode suf = Return v ->
  toUUID (format p suf)
  = if uuidValidate (stringify v) then Return (stringify v) else Throw InvalidUUID.
Proof.
  intros Hdec. unfold toUUID.
  now rewrite (getSuffix_format p suf v Hdec), Hdec.
Qed.

Lemma TypeID_toString_nonempty (p suf : string) :
  p <> EmptyString ->
  TypeID_toString (mkTypeID p suf) = p ++ "_" ++ suf.
Proof. intros Hp. unfold TypeID_toString. simpl. now apply format_nonempty. Qed.

End Identifier.

Lemma registered_prefix_valid (name : IdTypePrefixNames) :
  isValidPrefix (idTypesMapNameToPrefix name) = true.
Proof. destruct name; reflexivity. Qed.

Lemma registered_prefix_nonempty (name : IdTypePrefixNames) :
  idTypesMapNameToPrefix name <> EmptyString.
Proof. destruct name; discriminate. Qed.

Lemma format_registered (name : IdTypePrefixNames) (suf : string) :
  format (idTypesMapNameToPrefix name) suf
  = idTypesMapNameToPrefix name ++ "_" ++ suf.
Proof. apply format_nonempty, registered_prefix_nonempty. Qed.

(* ===================================================================== *)
(** ** Conversions between identifiers and UUIDs *)
(* ===================================================================== *)

(** [typeIdFromUUID] returns for every text. *)
Lemma typeIdFromUUID_value (name : IdTypePrefixNames) (u : string) :
  typeIdFromUUID name u
  = Return (idTypesMapNameToPrefix name ++ "_" ++ encode (parseUUID u)).
Proof.
  unfold typeIdFromUUID, TypeID_fromUUID.
  rewrite (newTypeID_ok _ _ (parseUUID u) (registered_prefix_valid name)
             (decode_encode _ (parseUUID_range u))).
  cbn [bind].
  now rewrite TypeID_toString_nonempty by apply registered_prefix_nonempty.
Qed.

Lemma typeIdFromUUID_stringify (name : IdTypePrefixNames) (v : Z) :
  0 <= v < 2 ^ 128 ->
  typeIdFromUUID name (stringify v)
  = Return (idTypesMapNameToPrefix name ++ "_" ++ encode v).
Proof.
  intros Hv. now rewrite typeIdFromUUID_value, parseUUID_stringify.
Qed.

(** [typeIdToUUID] on a well formed identifier: whether it returns is
    decided by the UUID text of the decoded value alone. *)
Lemma typeIdToUUID_format (p suf : string) (v : Z) :
  isValidPrefix p = true ->
  decode suf = Return v ->
  typeIdToUUID (format p suf)
  = if uuidValidate (stringify v)
    then Return (mkUuidAndPrefix (stringify v) p)
    else Throw InvalidUUID.
Proof.
  intros Hp Hdec. unfold typeIdToUUID.
  rewrite (fromString_format p suf v Hp Hdec). cbn [bind].
  rewrite (toUUID_format p suf v Hdec), (getType_format p suf v Hdec).
  now destruct (uuidValidate (stringify v)).
Qed.

(** The claim C1 fails on the code: the value 1, wrapped for "user",
    gives an identifier that [typeIdToUUID] refuses to convert back,
    because its UUID text has the version digit 0. *)
Lemma typeIdToUUID_typeIdFromUUID_counterexample :
  0 <= 1 < 2 ^ 128
  /\ stringify 1 = "00000000-0000-0000-0000-000000000001"
  /\ typeIdFromUUID user (stringify 1) = Return "usr_00000000000000000000000001"
  /\ (let* id := typeIdFromUUID user (stringify 1) in typeIdToUUID id)
     = Throw InvalidUUID
  /\ (let* id := typeIdFromUUID user (stringify 1) in typeIdToUUID id)
     <> Return (mkUuidAndPrefix (stringify 1) (idTypesMapNameToPrefix user)).
Proof.
  split; [lia|]. do 3 (split; [vm_compute; reflexivity|]).
  vm_compute. discriminate.
Qed.

(** C1, as amended. Wrapping the UUID of a 128-bit value for a registered
    type name and converting the identifier back yields the wire prefix
    of that name and the very same UUID when the UUID text is a valid
    UUID (version digit 1 to 8 and variant digit 8 to b, or the nil or
    the max UUID); for every other 128-bit value the conversion back
    throws. *)
Theorem typeIdToUUID_typeIdFromUUID (name : IdTypePrefixNames) (v : Z) :
  0 <= v < 2 ^ 128 ->
  (let* id := typeIdFromUUID name (stringify v) in typeIdToUUID id)
  = if uuidValidate (stringify v)
    then Return (mkUuidAndPrefix (stringify v) (idTypesMapNameToPrefix name))
    else Throw InvalidUUID.
Proof.
  intros Hv.
  rewrite typeIdFromUUID_stringify by exact Hv. cbn [bind].
  rewrite <- format_registered.
  apply typeIdToUUID_format.
  - apply registered_prefix_valid.
  - apply decode_encode, Hv.
Qed.

Lemma typeIdToUUID_typeIdFromUUID_witness :
  0 <= 24249434048109257320608360044760088576 < 2 ^ 128
  /\ uuidValidate "123e4567-e89b-42d3-a456-426614174000" = true
  /\ typeIdFromUUID post "123e4567-e89b-42d3-a456-426614174000"
     = Return "pst_0j7s2pft4v8b9t8nj2cra1eg00"
  /\ (let* id := typeIdFromUUID post "123e4567-e89b-42d3-a456-426614174000" in
      typeIdToUUID id)
     = Return (mkUuidAndPrefix "123e4567-e89b-42d3-a456-426614174000" "pst").
Proof.
  split; [lia|]. do 2 (split; [vm_compute; reflexivity|]).
  exact (typeIdToUUID_typeIdFromUUID post 24249434048109257320608360044760088576
           ltac:(lia)
         <: (let* id := typeIdFromUUID post "123e4567-e89b-42d3-a456-426614174000" in
             typeIdToUUID id)
            = Return (mkUuidAndPrefix "123e4567-e89b-42d3-a456-426614174000" "pst")).
Defined.

(** The claim C9 fails on the code: for the well formed prefix "foo" and
    a suffix that decodes, the call does not succeed. *)
Lemma typeIdToUUID_any_prefix_counterexample :
  isValidPrefix "foo" = true
  /\ decode "00000000000000000000000001" = Return 1
  /\ typeIdToUUID "foo_00000000000000000000000001" = Throw InvalidUUID
  /\ typeIdToUUID "usr_00000000000000000000000001" = Throw InvalidUUID.
Proof. repeat split; vm_compute; reflexivity. Qed.

(** C9, as amended. [typeIdToUUID] never consults the registry: for every
    non-empty prefix of the right syntax, registered or not, followed by
    an underscore and a suffix that decodes, it returns that prefix and
    the decoded UUID when the UUID text is a valid UUID, and throws the
    error of the UUID rendering otherwise, never an unknown-prefix
    error. *)
Theorem typeIdToUUID_any_prefix (p suf : string) (v : Z) :
  isValidPrefix p = true ->
  p <> EmptyString ->
  decode suf = Return v ->
  typeIdToUUID (p ++ "_" ++ suf)
  = if uuidValidate (stringify v)
    then Return (mkUuidAndPrefix (stringify v) p)
    else Throw InvalidUUID.
Proof.
  intros Hp Hne Hdec. rewrite <- (format_nonempty p suf Hne).
  now apply typeIdToUUID_format.
Qed.

Lemma typeIdToUUID_any_prefix_witness :
  idTypesMapPrefixToName !! "foo" = None
  /\ isValidPrefix "foo" = true
  /\ "foo" <> EmptyString
  /\ decode "01h455vb4pex5vsknk084sn02q"
     = Return 2040782911132661522235942288014082135
  /\ typeIdToUUID "foo_01h455vb4pex5vsknk084sn02q"
     = Return (mkUuidAndPrefix "01890a5d-ac96-774b-bcce-b302099a8057" "foo").
Proof.
  do 2 (split; [vm_compute; reflexivity|]). split; [discriminate|].
  split; [vm_compute; reflexivity|].
  exact (typeIdToUUID_any_prefix "foo" "01h455vb4pex5vsknk084sn02q"
           2040782911132661522235942288014082135
           ltac:(vm_compute; reflexivity) ltac:(discriminate)
           ltac:(vm_compute; reflexivity)
         <: typeIdToUUID "foo_01h455vb4pex5vsknk084sn02q"
            = Return (mkUuidAndPrefix "01890a5d-ac96-774b-bcce-b302099a8057" "foo")).
Defined.

(* ===================================================================== *)
(** ** Order of the suffixes *)
(* ===================================================================== *)

(** C7. The suffix encoding is strictly order preserving: a smaller
    128-bit value has a suffix that comes first in the ordinary
    lexicographic order of strings. *)
Theorem encode_order_preserving (v1 v2 : Z) :
  0 <= v1 -> v1 < v2 -> v2 < 2 ^ 128 ->
  String.compare (encode v1) (encode v2) = Lt.
Proof.
  intros H0 Hlt Hmax. unfold encode.
  apply (encodeDigits_lt alphabet 5 ltac:(lia) alphabet_increasing).
  change (5 * Z.of_nat suffixLength) with 130.
  rewrite !Z.mod_small by lia. exact Hlt.
Qed.

Lemma encode_order_preserving_witness :
  (0 <= 31 /\ 31 < 32 /\ 32 < 2 ^ 128)
  /\ String.compare (encode 31) (encode 32) = Lt
  /\ encode 31 = "0000000000000000000000000z"
  /\ encode 32 = "00000000000000000000000010".
Proof.
  split; [lia|].
  split; [apply (encode_order_preserving 31 32); lia|].
  split; reflexivity.
Defined.

(* ===================================================================== *)
(** ** The prefix registry *)
(* ===================================================================== *)

Lemma idTypesMapPrefixToName_unfold :
  idTypesMapPrefixToName
  = <["cmt" := comment]> (<["pst" := post]> (<["usr" := user]> ∅)).
Proof. reflexivity. Qed.

Lemma idTypesMapPrefixToName_Some (p : string) (name : IdTypePrefixNames) :
  idTypesMapPrefixToName !! p = Some name -> idTypesMapNameToPrefix name = p.
Proof.
  rewrite idTypesMapPrefixToName_unfold. intros H.
  repeat (apply lookup_insert_Some in H as [[<- <-]|[_ H]]; [reflexivity|]).
  now rewrite lookup_empty in H.
Qed.

Lemma idTypesMapPrefixToName_prefix (name : IdTypePrefixNames) :
  idTypesMapPrefixToName !! idTypesMapNameToPrefix name = Some name.
Proof. destruct name; reflexivity. Qed.

(** C8. The forward and the reverse map of the registry are inverse to
    each other: the reverse map sends the prefix of every type name back to
    that name, every prefix it knows is the prefix of the name it yields,
    and no two type names share a prefix. *)
Theorem registry_maps_inverse :
  (forall name, idTypesMapPrefixToName !! idTypesMapNameToPrefix name = Some name)
  /\ (forall p name,
        idTypesMapPrefixToName !! p = Some name ->
        idTypesMapNameToPrefix name = p)
  /\ (forall name1 name2,
        idTypesMapNameToPrefix name1 = idTypesMapNameToPrefix name2 ->
        name1 = name2).
Proof.
  split; [exact idTypesMapPrefixToName_prefix|].
  split; [exact idTypesMapPrefixToName_Some|].
  intros name1 name2 Heq.
  pose proof (idTypesMapPrefixToName_prefix name1) as H1.
  rewrite Heq, idTypesMapPrefixToName_prefix in H1.
  now injection H1.
Qed.

Lemma registry_maps_inverse_witness :
  idTypesMapPrefixToName !! "pst" = Some post
  /\ idTypesMapNameToPrefix post = "pst".
Proof.
  split; [reflexivity|].
  apply (proj1 (proj2 registry_maps_inverse) "pst" post). reflexivity.
Defined.

(* ===================================================================== *)
(** ** The validators *)
(* ===================================================================== *)

Section Validators.

Variable name : IdTypePrefixNames.

Lemma schema_typeIdValidator :
  schema (typeIdValidator name)
  = [CheckStartsWith (expectedStart name); CheckLength (expectedLength name)].
Proof. reflexivity. Qed.

(** A text that fails one of the two checks is reported, and the
    transform is not called. *)
Lemma safeParse_issue (s : string) :
  startsWith s (expectedStart name) = false \/ String.length s <> (expectedLength name) ->
  exists issues,
    safeParse (typeIdValidator name) (VString s) = Return (SafeParseError issues)
    /\ issues <> [].
Proof.
  intros H. unfold safeParse. rewrite schema_typeIdValidator.
  cbn [flat_map runCheck]. rewrite app_nil_r.
  destruct (startsWith s (expectedStart name)) eqn:Hstart.
  - destruct H as [H|H]; [discriminate|].
    cbn [app].
    destruct (Nat.ltb_spec (expectedLength name) (String.length s));
      [eexists; split; [reflexivity | discriminate]|].
    destruct (Nat.ltb_spec (String.length s) (expectedLength name));
      [eexists; split; [reflexivity | discriminate]|].
    lia.
  - cbn [app]. eexists; split; [reflexivity | discriminate].
Qed.

Lemma validateTypeId_issue (s : string) :
  startsWith s (expectedStart name) = false \/ String.length s <> (expectedLength name) ->
  validateTypeId name (VString s) = Return false.
Proof.
  intros H. unfold validateTypeId.
  destruct (safeParse_issue s H) as (issues & -> & _). reflexivity.
Qed.

(** What an accepted text looks like. *)
Lemma validateTypeId_true_inv (s : string) :
  validateTypeId name (VString s) = Return true ->
  startsWith s (expectedStart name) = true /\ String.length s = (expectedLength name).
Proof.
  intros Hok.
  destruct (startsWith s (expectedStart name)) eqn:Hstart.
  - split; [reflexivity|].
    destruct (Nat.eq_dec (String.length s) (expectedLength name)) as [|Hne]; [assumption|].
    rewrite validateTypeId_issue in Hok by (right; exact Hne). discriminate.
  - rewrite validateTypeId_issue in Hok by (left; exact Hstart). discriminate.
Qed.

(** The registered prefix followed by a suffix that decodes is accepted,
    and the transform hands the text back. *)
Lemma safeParse_format (suf : string) (v : Z) :
  decode suf = Return v ->
  safeParse (typeIdValidator name)
    (VString (idTypesMapNameToPrefix name ++ "_" ++ suf))
  = Return (SafeParseSuccess (idTypesMapNameToPrefix name ++ "_" ++ suf)).
Proof.
  intros Hdec. unfold safeParse.
  rewrite schema_typeIdValidator. cbn [flat_map runCheck].
  replace (startsWith (idTypesMapNameToPrefix name ++ "_" ++ suf) (expectedStart name))
    with true.
  2:{ unfold startsWith, expectedStart.
      rewrite <- app_assoc_string. now rewrite prefix_app. }
  assert (Hlen : String.length (idTypesMapNameToPrefix name ++ "_" ++ suf)
                 = expectedLength name).
  { rewrite !length_app, (decode_length suf v Hdec).
    unfold expectedLength, typeIdLength, suffixLength. simpl. lia. }
  rewrite Hlen, Nat.ltb_irrefl. cbn [app].
  cbn [effect typeIdValidator z_transform].
  rewrite <- format_registered.
  rewrite (TypeID_fromString_format _ suf v (registered_prefix_valid name) Hdec).
  cbn [bind]. unfold asType. cbn [tidPrefix]. rewrite String.eqb_refl.
  reflexivity.
Qed.

Lemma validateTypeId_format (suf : string) (v : Z) :
  decode suf = Return v ->
  validateTypeId name (VString (idTypesMapNameToPrefix name ++ "_" ++ suf))
  = Return true.
Proof.
  intros Hdec. unfold validateTypeId.
  now rewrite (safeParse_format suf v Hdec).
Qed.

(** A text that passes the two checks is the prefix, an underscore and 26
    more characters. *)
Lemma checks_pass_shape (s : string) :
  startsWith s (expectedStart name) = true ->
  String.length s = expectedLength name ->
  exists suf, s = idTypesMapNameToPrefix name ++ "_" ++ suf
              /\ String.length suf = suffixLength.
Proof.
  intros Hstart Hlen. apply prefix_split in Hstart as [suf ->].
  unfold expectedStart in *. exists suf. split; [apply app_assoc_string|].
  rewrite !length_app in Hlen.
  unfold expectedLength, typeIdLength, suffixLength in *. simpl in Hlen. lia.
Qed.

End Validators.

Lemma app_inv_length (a c b d : string) :
  a ++ b = c ++ d -> String.length b = String.length d -> a = c /\ b = d.
Proof.
  revert c; induction a as [|x a IH]; intros c H Hlen.
  - rewrite app_nil in H. subst b. rewrite length_app in Hlen.
    destruct c; [now rewrite app_nil | simpl in Hlen; lia].
  - destruct c as [|y c].
    + rewrite app_nil in H. subst d. rewrite length_app in Hlen.
      simpl in Hlen. lia.
    + rewrite !app_cons in H. injection H as -> H.
      destruct (IH c H Hlen) as [-> ->]. auto.
Qed.

(** A text that passes both checks and whose last 26 characters do not
    decode makes the transform, and with it the whole call, throw. *)
Lemma validateTypeId_throws (name : IdTypePrefixNames) (suf : string) :
  String.length suf = suffixLength ->
  throws (decode suf) ->
  throws (validateTypeId name (VString (idTypesMapNameToPrefix name ++ "_" ++ suf))).
Proof.
  intros Hlen [e Hdec]. unfold validateTypeId, safeParse.
  rewrite schema_typeIdValidator. cbn [flat_map runCheck].
  replace (startsWith (idTypesMapNameToPrefix name ++ "_" ++ suf) (expectedStart name))
    with true.
  2:{ unfold startsWith, expectedStart.
      rewrite <- app_assoc_string. now rewrite prefix_app. }
  assert (Hl : String.length (idTypesMapNameToPrefix name ++ "_" ++ suf)
               = expectedLength name).
  { rewrite !length_app, Hlen.
    unfold expectedLength, typeIdLength, suffixLength. simpl. lia. }
  rewrite Hl, Nat.ltb_irrefl. cbn [app].
  cbn [effect typeIdValidator z_transform].
  destruct (TypeID_fromString (idTypesMapNameToPrefix name ++ "_" ++ suf))
    as [id|e'] eqn:Hid; [|now exists e'].
  exfalso.
  apply TypeID_fromString_Return in Hid as (p & suf' & v & Hs & _ & _ & Hdec').
  pose proof (decode_length suf' v Hdec') as Hlen'.
  destruct p as [|c p].
  - cbn [format] in Hs. apply (f_equal String.length) in Hs.
    rewrite !length_app, Hlen, Hlen' in Hs. simpl in Hs. lia.
  - rewrite format_nonempty in Hs by discriminate.
    rewrite <- !app_assoc_string in Hs.
    apply app_inv_length in Hs as [_ ->]; [congruence | congruence].
Qed.

Lemma prefix_first_char (a b : ascii) (p q s : string) :
  String.prefix (String a p) s = true ->
  String.prefix (String b q) s = true ->
  a = b.
Proof.
  destruct s as [|c s]; simpl; [discriminate|].
  destruct (ascii_dec a c) as [->|]; [|discriminate].
  destruct (ascii_dec b c) as [->|]; [reflexivity | discriminate].
Qed.

Lemma expectedStart_distinct (name1 name2 : IdTypePrefixNames) (s : string) :
  name1 <> name2 ->
  startsWith s (expectedStart name1) = true ->
  startsWith s (expectedStart name2) = false.
Proof.
  intros Hne H1.
  destruct (startsWith s (expectedStart name2)) eqn:H2; [|reflexivity].
  exfalso. unfold startsWith in H1, H2.
  destruct name1, name2; try (now apply Hne);
    pose proof (prefix_first_char _ _ _ _ _ H1 H2) as Habs; discriminate Habs.
Qed.

(** C2. On the candidate "usr_" followed by 26 times the letter i, which
    passes the prefix and the length check, [validateTypeId] for "user"
    does not return [false]: the transform throws and the exception leaves
    the call. *)
Theorem validateTypeId_disallowed_letter :
  validateTypeId user (VString ("usr_" ++ repeatChar "i" 26))
  = Throw InvalidSuffixAlphabet.
Proof. reflexivity. Qed.

(** C4. A text accepted for one registered type name is rejected, with
    [false], for every other registered type name. *)
Theorem validateTypeId_cross_type (name other : IdTypePrefixNames) (s : string) :
  other <> name ->
  validateTypeId other (VString s) = Return true ->
  validateTypeId name (VString s) = Return false.
Proof.
  intros Hne Hok.
  apply validateTypeId_true_inv in Hok as [Hstart _].
  apply validateTypeId_issue. left.
  exact (expectedStart_distinct other name s Hne Hstart).
Qed.

Lemma validateTypeId_cross_type_witness :
  post <> user
  /\ validateTypeId post (VString "pst_01h455vb4pex5vsknk084sn02q") = Return true
  /\ decode "01h455vb4pex5vsknk084sn02q"
     = Return 2040782911132661522235942288014082135
  /\ validateTypeId user (VString "pst_01h455vb4pex5vsknk084sn02q") = Return false.
Proof.
  split; [discriminate|].
  split; [reflexivity|].
  split; [reflexivity|].
  apply (validateTypeId_cross_type user post "pst_01h455vb4pex5vsknk084sn02q");
    [discriminate | reflexivity].
Defined.

(** C5. The validator for "post", applied to "usr_" followed by 26
    characters of the suffix alphabet, returns a structured failure that
    reports the missing "pst_" prefix; it never returns a success. *)
Theorem typeIdValidator_post_rejects_usr (suf : string) :
  String.length suf = 26%nat ->
  allChars (fun c => bool_decide (is_Some (suffixValue c))) suf = true ->
  safeParse (typeIdValidator post) (VString ("usr_" ++ suf))
  = Return (SafeParseError [invalid_string_startsWith "pst_"]).
Proof.
  intros Hlen _. unfold safeParse.
  rewrite schema_typeIdValidator. cbn [flat_map runCheck].
  change (startsWith ("usr_" ++ suf) (expectedStart post)) with false.
  rewrite length_app, Hlen.
  reflexivity.
Qed.

Lemma typeIdValidator_post_rejects_usr_witness :
  String.length "7zzzzzzzzzzzzzzzzzzzzzzzzz" = 26%nat
  /\ allChars (fun c => bool_decide (is_Some (suffixValue c)))
       "7zzzzzzzzzzzzzzzzzzzzzzzzz" = true
  /\ safeParse (typeIdValidator post) (VString "usr_7zzzzzzzzzzzzzzzzzzzzzzzzz")
     = Return (SafeParseError [invalid_string_startsWith "pst_"]).
Proof.
  split; [reflexivity|].
  split; [reflexivity|].
  apply (typeIdValidator_post_rejects_usr "7zzzzzzzzzzzzzzzzzzzzzzzzz");
    reflexivity.
Defined.

(** C6. Removing one character, the last or any other, from a text that
    [validateTypeId] accepts yields a text that it rejects with [false]. *)
Theorem validateTypeId_truncated (name : IdTypePrefixNames) (s : string) (i : nat) :
  validateTypeId name (VString s) = Return true ->
  (i < String.length s)%nat ->
  validateTypeId name (VString (removeAt i s)) = Return false.
Proof.
  intros Hok Hi.
  apply validateTypeId_true_inv in Hok as [_ Hlen].
  apply validateTypeId_issue. right.
  rewrite length_removeAt by exact Hi. lia.
Qed.

Lemma validateTypeId_truncated_witness :
  validateTypeId comment (VString "cmt_01h455vb4pex5vsknk084sn02q") = Return true
  /\ (29 < String.length "cmt_01h455vb4pex5vsknk084sn02q")%nat
  /\ removeAt 29 "cmt_01h455vb4pex5vsknk084sn02q" = "cmt_01h455vb4pex5vsknk084sn02"
  /\ validateTypeId comment (VString "cmt_01h455vb4pex5vsknk084sn02") = Return false.
Proof.
  split; [reflexivity|].
  split; [simpl; lia|].
  split; [reflexivity|].
  apply (validateTypeId_truncated comment "cmt_01h455vb4pex5vsknk084sn02q" 29);
    [reflexivity | simpl; lia].
Defined.

(** C10. Every identifier generated for a registered type name, whatever
    128-bit value the generator drew, passes the validator of that name. *)
Theorem typeIdGenerator_valid (name : IdTypePrefixNames) (fresh : Z) :
  0 <= fresh < 2 ^ 128 ->
  (let* id := typeIdGenerator fresh name in validateTypeId name (VString id))
  = Return true.
Proof.
  intros Hv. unfold typeIdGenerator, typeid.
  rewrite (newTypeID_ok _ _ fresh (registered_prefix_valid name)
             (decode_encode fresh Hv)).
  cbn [bind]. rewrite TypeID_toString_nonempty by apply registered_prefix_nonempty.
  apply (validateTypeId_format name (encode fresh) fresh).
  apply decode_encode, Hv.
Qed.

Lemma typeIdGenerator_valid_witness :
  0 <= 2040782911132661522235942288014082135 < 2 ^ 128
  /\ typeIdGenerator 2040782911132661522235942288014082135 user
     = Return "usr_01h455vb4pex5vsknk084sn02q"
  /\ (let* id := typeIdGenerator 2040782911132661522235942288014082135 user in
      validateTypeId user (VString id)) = Return true.
Proof.
  split; [lia|].
  split; [reflexivity|].
  apply (typeIdGenerator_valid user 2040782911132661522235942288014082135). lia.
Defined.

(* ===================================================================== *)
(** ** Inferring the type name *)
(* ===================================================================== *)

(** The claim C3 fails on the code: for the unregistered prefix "foo"
    the call returns [undefined] and raises nothing. *)
Lemma inferTypeId_unregistered_counterexample :
  idTypesMapPrefixToName !! "foo" = None
  /\ getType "foo_00000000000000000000000001" = "foo"
  /\ inferTypeId "foo_00000000000000000000000001" = Return Undefined
  /\ ~ throws (inferTypeId "foo_00000000000000000000000001").
Proof.
  repeat split; try (vm_compute; reflexivity).
  intros [e He]. vm_compute in He. discriminate He.
Qed.

(** C3, as amended. For an input that [format] writes from a well formed
    prefix that is not registered (the empty prefix of a bare suffix
    included) and a suffix that decodes, [inferTypeId] raises no error: it
    returns what the property lookup yields, which is [undefined] or a
    member inherited by every object, never a type name.  It throws when
    the input is malformed: when what follows the last underscore does
    not decode, or when what precedes it is no well formed prefix. *)
Theorem inferTypeId_unregistered :
  (forall p suf v,
      isValidPrefix p = true ->
      decode suf = Return v ->
      idTypesMapPrefixToName !! p = None ->
      exists r,
        inferTypeId (format p suf) = Return r
        /\ (r = Undefined \/ r = Inherited p))
  /\ (forall input,
        throws (decode (getSuffix input))
        \/ isValidPrefix (getType input) = false ->
        throws (inferTypeId input)).
Proof.
  split.
  - intros p suf v Hp Hdec Hnone. unfold inferTypeId.
    rewrite (TypeID_fromString_format p suf v Hp Hdec).
    cbn [bind TypeID_getType tidPrefix]. unfold getProperty. rewrite Hnone.
    destruct (existsb (String.eqb p) objectPrototypeKeys); eauto.
  - intros input Hbad. unfold inferTypeId.
    destruct (TypeID_fromString input) as [id|e] eqn:Hid; [|now exists e].
    exfalso.
    apply TypeID_fromString_Return in Hid as (p & suf & v & -> & _ & Hp & Hdec).
    rewrite (getSuffix_format p suf v Hdec), (getType_format p suf v Hdec) in Hbad.
    destruct Hbad as [[e He]|Hbad]; congruence.
Qed.

Lemma inferTypeId_unregistered_witness :
  (isValidPrefix "foo" = true
   /\ decode "7zzzzzzzzzzzzzzzzzzzzzzzzz" = Return (2 ^ 128 - 1)
   /\ idTypesMapPrefixToName !! "foo" = None
   /\ exists r,
        inferTypeId "foo_7zzzzzzzzzzzzzzzzzzzzzzzzz" = Return r
        /\ (r = Undefined \/ r = Inherited "foo"))
  /\ (isValidPrefix (getType "a1_7zzzzzzzzzzzzzzzzzzzzzzzzz") = false
      /\ throws (inferTypeId "a1_7zzzzzzzzzzzzzzzzzzzzzzzzz")).
Proof.
  split.
  - do 3 (split; [vm_compute; reflexivity|]).
    exact (proj1 inferTypeId_unregistered "foo" "7zzzzzzzzzzzzzzzzzzzzzzzzz"
             (2 ^ 128 - 1) ltac:(vm_compute; reflexivity)
             ltac:(vm_compute; reflexivity) ltac:(vm_compute; reflexivity)).
  - split; [vm_compute; reflexivity|].
    apply (proj2 inferTypeId_unregistered "a1_7zzzzzzzzzzzzzzzzzzzzzzzzz").
    right. vm_compute. reflexivity.
Defined.

(** A registered prefix is mapped back to its type name. *)
Lemma inferTypeId_registered (name : IdTypePrefixNames) (suf : string) (v : Z) :
  decode suf = Return v ->
  inferTypeId (idTypesMapNameToPrefix name ++ "_" ++ suf) = Return (Own name).
Proof.
  intros Hdec. unfold inferTypeId. rewrite <- format_registered.
  rewrite (TypeID_fromString_format _ suf v (registered_prefix_valid name) Hdec).
  cbn [bind TypeID_getType tidPrefix]. unfold getProperty.
  now rewrite idTypesMapPrefixToName_prefix.
Qed.

(* ===================================================================== *)
(** ** The scenarios of the specification and of [example.ts] *)
(* ===================================================================== *)

Example scenario_fromUnique :
  typeIdFromUUID user "00000000-0000-0000-0000-000000000001"
  = Return "usr_00000000000000000000000001".
Proof. vm_compute. reflexivity. Qed.

Example scenario_inferTypeName :
  inferTypeId "usr_00000000000000000000000001" = Return (Own user).
Proof. vm_compute. reflexivity. Qed.

(** The value 1 has no valid UUID text, so the third step of the
    specification's scenario does not return. *)
Example scenario_toUnique :
  typeIdToUUID "usr_00000000000000000000000001" = Throw InvalidUUID.
Proof. vm_compute. reflexivity. Qed.

Example example_roundtrip :
  typeIdToUUID "usr_01h455vb4pex5vsknk084sn02q"
  = Return (mkUuidAndPrefix "01890a5d-ac96-774b-bcce-b302099a8057" "usr").
Proof. vm_compute. reflexivity. Qed.

Example example_invalidId :
  safeParse (typeIdValidator user) (VString "usr_invalid123")
  = Return (SafeParseError [too_small 30]).
Proof. reflexivity. Qed.

Example example_anotherInvalid :
  validateTypeId user (VString "post_123456789012345678901234") = Return false.
Proof. reflexivity. Qed.

Example example_not_a_string :
  validateTypeId user (VNumber 42) = Return false.
Proof. reflexivity. Qed.

Example suffix_overflow_throws :
  validateTypeId user (VString "usr_8zzzzzzzzzzzzzzzzzzzzzzzzz") = Throw SuffixOverflow.
Proof. vm_compute. reflexivity. Qed.

Example bare_suffix_has_empty_prefix :
  inferTypeId "01h455vb4pex5vsknk084sn02q" = Return Undefined
  /\ inferTypeId "a_b_01h455vb4pex5vsknk084sn02q" = Return Undefined.
Proof. split; vm_compute; reflexivity. Qed.

Example not_a_uuid_is_wrapped :
  typeIdFromUUID user "" = Return "usr_00000000000000000000000000".
Proof. vm_compute. reflexivity. Qed.

(* ===================================================================== *)
(** ** What the functions of [index.ts] accept and return *)
(* ===================================================================== *)

Lemma typeIdGenerator_value (name : IdTypePrefixNames) (fresh : Z) :
  0 <= fresh < 2 ^ 128 ->
  typeIdGenerator fresh name
  = Return (idTypesMapNameToPrefix name ++ "_" ++ encode fresh).
Proof.
  intros Hv. unfold typeIdGenerator, typeid.
  rewrite (newTypeID_ok _ _ fresh (registered_prefix_valid name)
             (decode_encode fresh Hv)).
  cbn [bind]. now rewrite TypeID_toString_nonempty by apply registered_prefix_nonempty.
Qed.

Lemma validateTypeId_true_shape (name : IdTypePrefixNames) (s : string) :
  validateTypeId name (VString s) = Return true ->
  exists suf v, s = idTypesMapNameToPrefix name ++ "_" ++ suf
                /\ decode suf = Return v.
Proof.
  intros Hok.
  destruct (validateTypeId_true_inv name s Hok) as [Hstart Hlen].
  destruct (checks_pass_shape name s Hstart Hlen) as (suf & -> & Hsuf).
  exists suf. destruct (decode suf) as [v|e] eqn:Hdec; [eauto|].
  destruct (validateTypeId_throws name suf Hsuf) as [e' He'];
    [now exists e|].
  rewrite He' in Hok. discriminate.
Qed.

Lemma encode_lt (v1 v2 : Z) :
  0 <= v1 -> v1 < v2 -> v2 < 2 ^ 128 ->
  String.compare (encode v1) (encode v2) = Lt.
Proof.
  intros H0 Hlt Hmax. unfold encode.
  apply (encodeDigits_lt alphabet 5 ltac:(lia) alphabet_increasing).
  change (5 * Z.of_nat suffixLength) with 130.
  rewrite !Z.mod_small by lia. exact Hlt.
Qed.

Lemma length_format (p suf : string) :
  (String.length suf <= String.length (format p suf))%nat.
Proof.
  destruct p as [|c p]; [cbn [format]; lia|].
  rewrite format_nonempty by discriminate. rewrite !length_app. lia.
Qed.

(** A text shorter than a suffix is refused by the parser. *)
Lemma short_fromString_throws (s : string) :
  (String.length s < suffixLength)%nat -> throws (fromString s).
Proof.
  intros Hlen. destruct (fromString s) as [r|e] eqn:Hr; [|now exists e].
  exfalso.
  apply fromString_Return in Hr as (p & suf & v & -> & _ & _ & Hdec).
  pose proof (length_format p suf). pose proof (decode_length suf v Hdec). lia.
Qed.

(* ===================================================================== *)
(** ** Further properties of the validators *)
(* ===================================================================== *)

(** X1. [validateTypeId] returns [true] exactly on the strings made of the
    registered prefix of the type name, an underscore and a suffix that
    decodes. *)
Theorem validateTypeId_true_iff (name : IdTypePrefixNames) (data : unknown) :
  validateTypeId name data = Return true
  <-> exists suf v,
        data = VString (idTypesMapNameToPrefix name ++ "_" ++ suf)
        /\ decode suf = Return v.
Proof.
  split.
  - intros Hok. destruct data as [s| | | |]; try discriminate Hok.
    destruct (validateTypeId_true_shape name s Hok) as (suf & v & -> & Hdec).
    eauto.
  - intros (suf & v & -> & Hdec). exact (validateTypeId_format name suf v Hdec).
Qed.

(** X2. [validateTypeId] throws exactly on the strings that pass both
    checks, the registered prefix with its underscore followed by 26
    characters, while these 26 characters do not decode; on every other
    input it returns a boolean. *)
Theorem validateTypeId_throws_iff (name : IdTypePrefixNames) (data : unknown) :
  throws (validateTypeId name data)
  <-> exists suf,
        data = VString (idTypesMapNameToPrefix name ++ "_" ++ suf)
        /\ String.length suf = suffixLength
        /\ throws (decode suf).
Proof.
  split.
  - intros [e He]. destruct data as [s| | | |]; try discriminate He.
    destruct (startsWith s (expectedStart name)) eqn:Hstart.
    2:{ rewrite validateTypeId_issue in He by (left; exact Hstart). discriminate. }
    destruct (Nat.eq_dec (String.length s) (expectedLength name)) as [Hlen|Hne].
    2:{ rewrite validateTypeId_issue in He by (right; exact Hne). discriminate. }
    destruct (checks_pass_shape name s Hstart Hlen) as (suf & -> & Hsuf).
    exists suf. split; [reflexivity|]. split; [exact Hsuf|].
    destruct (decode suf) as [v|e'] eqn:Hdec; [|now exists e'].
    rewrite (validateTypeId_format name suf v Hdec) in He. discriminate.
  - intros (suf & -> & Hsuf & Hdec).
    exact (validateTypeId_throws name suf Hsuf Hdec).
Qed.

(** X3. A successful [safeParse] of [typeIdValidator] hands back the very
    string it was given: the transform changes nothing. *)
Theorem typeIdValidator_success_is_input
    (name : IdTypePrefixNames) (data : unknown) (out : string) :
  safeParse (typeIdValidator name) data = Return (SafeParseSuccess out) ->
  data = VString out.
Proof.
  intros H.
  assert (Hok : validateTypeId name data = Return true)
    by (unfold validateTypeId; now rewrite H).
  destruct data as [s| | | |]; try discriminate Hok.
  destruct (validateTypeId_true_shape name s Hok) as (suf & v & -> & Hdec).
  rewrite (safeParse_format name suf v Hdec) in H. now injection H as <-.
Qed.

Lemma typeIdValidator_success_is_input_witness :
  safeParse (typeIdValidator user) (VString "usr_01h455vb4pex5vsknk084sn02q")
  = Return (SafeParseSuccess "usr_01h455vb4pex5vsknk084sn02q")
  /\ VString "usr_01h455vb4pex5vsknk084sn02q"
     = VString "usr_01h455vb4pex5vsknk084sn02q".
Proof.
  split; [reflexivity|].
  apply (typeIdValidator_success_is_input user
           (VString "usr_01h455vb4pex5vsknk084sn02q")
           "usr_01h455vb4pex5vsknk084sn02q").
  reflexivity.
Defined.

(** X4. [inferTypeId] answers with a type name exactly on the strings that
    [validateTypeId] accepts for that name. *)
Theorem inferTypeId_iff_validateTypeId (name : IdTypePrefixNames) (s : string) :
  inferTypeId s = Return (Own name)
  <-> validateTypeId name (VString s) = Return true.
Proof.
  split.
  - unfold inferTypeId. intros H.
    destruct (TypeID_fromString s) as [id|e] eqn:Hid; [|discriminate].
    apply TypeID_fromString_Return in Hid as (p & suf & v & -> & -> & Hp & Hdec).
    cbn [bind TypeID_getType tidPrefix] in H. unfold getProperty in H.
    destruct (idTypesMapPrefixToName !! p) as [name'|] eqn:Hlook.
    + injection H as ->. apply idTypesMapPrefixToName_Some in Hlook as <-.
      rewrite format_registered.
      exact (validateTypeId_format name suf v Hdec).
    + destruct (existsb (String.eqb p) objectPrototypeKeys); discriminate.
  - intros Hok.
    destruct (validateTypeId_true_shape name s Hok) as (suf & v & -> & Hdec).
    exact (inferTypeId_registered name suf v Hdec).
Qed.

(** X5. A string that [validateTypeId] accepts is the registered prefix
    followed by the encoding of a 128-bit value, and [typeIdToUUID]
    returns on it exactly when the UUID text of that value is a valid
    UUID: then the prefix is the registered prefix of the name and the
    UUID is that text; otherwise [typeIdToUUID] throws, although the
    string was validated. *)
Theorem validated_typeIdToUUID (name : IdTypePrefixNames) (s : string) :
  validateTypeId name (VString s) = Return true ->
  exists v,
    0 <= v < 2 ^ 128
    /\ s = idTypesMapNameToPrefix name ++ "_" ++ encode v
    /\ typeIdToUUID s
       = if uuidValidate (stringify v)
         then Return (mkUuidAndPrefix (stringify v) (idTypesMapNameToPrefix name))
         else Throw InvalidUUID.
Proof.
  intros Hok.
  destruct (validateTypeId_true_shape name s Hok) as (suf & v & -> & Hdec).
  destruct (decode_Return suf v Hdec) as (_ & Hv & Henc).
  exists v. split; [exact Hv|]. split; [now rewrite Henc|].
  rewrite <- format_registered.
  exact (typeIdToUUID_format _ suf v (registered_prefix_valid name) Hdec).
Qed.

Lemma validated_typeIdToUUID_witness :
  validateTypeId post (VString "pst_00000000000000000000000001") = Return true
  /\ exists v,
       0 <= v < 2 ^ 128
       /\ "pst_00000000000000000000000001" = "pst" ++ "_" ++ encode v
       /\ typeIdToUUID "pst_00000000000000000000000001"
          = if uuidValidate (stringify v)
            then Return (mkUuidAndPrefix (stringify v) "pst")
            else Throw InvalidUUID.
Proof.
  split; [vm_compute; reflexivity|].
  apply (validated_typeIdToUUID post "pst_00000000000000000000000001").
  vm_compute. reflexivity.
Defined.

(** X6. [typeIdFromUUID] returns on every text, well formed UUID or not,
    and the identifier it returns for a type name passes [validateTypeId]
    for that name. *)
Theorem typeIdFromUUID_validates (name : IdTypePrefixNames) (u : string) :
  exists id,
    typeIdFromUUID name u = Return id
    /\ validateTypeId name (VString id) = Return true.
Proof.
  exists (idTypesMapNameToPrefix name ++ "_" ++ encode (parseUUID u)).
  split; [apply typeIdFromUUID_value|].
  exact (validateTypeId_format name _ _ (decode_encode _ (parseUUID_range u))).
Qed.

(** X12. On a text of fewer than 26 characters, the empty one included,
    [typeIdToUUID] and [inferTypeId] throw and [validateTypeId] returns
    [false]. *)
Theorem short_input_rejected (name : IdTypePrefixNames) (s : string) :
  (String.length s < 26)%nat ->
  throws (typeIdToUUID s)
  /\ throws (inferTypeId s)
  /\ validateTypeId name (VString s) = Return false.
Proof.
  intros Hlen. destruct (short_fromString_throws s Hlen) as [e He].
  split; [|split].
  - exists e. unfold typeIdToUUID. now rewrite He.
  - exists e. unfold inferTypeId, TypeID_fromString. now rewrite He.
  - apply validateTypeId_issue. right.
    unfold expectedLength, typeIdLength. lia.
Qed.

Lemma short_input_rejected_witness :
  (String.length "" < 26)%nat
  /\ throws (typeIdToUUID "")
  /\ throws (inferTypeId "")
  /\ validateTypeId user (VString "") = Return false.
Proof.
  split; [simpl; lia|].
  apply (short_input_rejected user ""). simpl. lia.
Defined.

(* ===================================================================== *)
(** ** Further properties of the conversions and of the generator *)
(* ===================================================================== *)

Lemma retag (name : IdTypePrefixNames) (p suf : string) (v : Z) :
  isValidPrefix p = true ->
  decode suf = Return v ->
  uuidValidate (stringify v) = true ->
  (let* r := typeIdToUUID (format p suf) in typeIdFromUUID name (uuid r))
  = Return (idTypesMapNameToPrefix name ++ "_" ++ suf).
Proof.
  intros Hp Hdec Hvalid.
  rewrite (typeIdToUUID_format p suf v Hp Hdec), Hvalid. cbn [bind uuid].
  destruct (decode_Return suf v Hdec) as (_ & Hv & Henc).
  now rewrite (typeIdFromUUID_stringify name v Hv), Henc.
Qed.

(** On a validated identifier, [typeIdToUUID] returns only the UUID text
    of the value that the suffix encodes. *)
Lemma validated_typeIdToUUID_Return
    (name : IdTypePrefixNames) (s : string) (r : UuidAndPrefix) :
  validateTypeId name (VString s) = Return true ->
  typeIdToUUID s = Return r ->
  exists v, 0 <= v < 2 ^ 128
            /\ s = idTypesMapNameToPrefix name ++ "_" ++ encode v
            /\ uuid r = stringify v.
Proof.
  intros Hok Hr.
  destruct (validateTypeId_true_shape name s Hok) as (suf & v & -> & Hdec).
  destruct (decode_Return suf v Hdec) as (_ & Hv & Henc).
  rewrite <- format_registered in Hr.
  rewrite (typeIdToUUID_format _ suf v (registered_prefix_valid name) Hdec) in Hr.
  destruct (uuidValidate (stringify v)); [|discriminate].
  injection Hr as <-. exists v. now rewrite Henc.
Qed.

(** X7. When [typeIdToUUID] returns on an identifier that [validateTypeId]
    accepts for a type name, wrapping the UUID it returns for the same
    name gives the identifier back. *)
Theorem typeIdFromUUID_typeIdToUUID
    (name : IdTypePrefixNames) (s : string) (r : UuidAndPrefix) :
  validateTypeId name (VString s) = Return true ->
  typeIdToUUID s = Return r ->
  typeIdFromUUID name (uuid r) = Return s.
Proof.
  intros Hok Hr.
  destruct (validated_typeIdToUUID_Return name s r Hok Hr) as (v & Hv & -> & ->).
  exact (typeIdFromUUID_stringify name v Hv).
Qed.

Lemma typeIdFromUUID_typeIdToUUID_witness :
  validateTypeId user (VString "usr_01h455vb4pex5vsknk084sn02q") = Return true
  /\ typeIdToUUID "usr_01h455vb4pex5vsknk084sn02q"
     = Return (mkUuidAndPrefix "01890a5d-ac96-774b-bcce-b302099a8057" "usr")
  /\ typeIdFromUUID user "01890a5d-ac96-774b-bcce-b302099a8057"
     = Return "usr_01h455vb4pex5vsknk084sn02q".
Proof.
  do 2 (split; [vm_compute; reflexivity|]).
  exact (typeIdFromUUID_typeIdToUUID user "usr_01h455vb4pex5vsknk084sn02q"
           (mkUuidAndPrefix "01890a5d-ac96-774b-bcce-b302099a8057" "usr")
           ltac:(vm_compute; reflexivity) ltac:(vm_compute; reflexivity)).
Defined.

(** X8. [typeIdFromUUID] trusts the type name it is given: when the UUID
    text of the decoded value is a valid UUID, the UUID taken from an
    identifier of any well formed prefix, wrapped for a type name, yields
    the same suffix under the prefix of that name. *)
Theorem typeIdFromUUID_retags
    (name : IdTypePrefixNames) (p suf : string) (v : Z) :
  isValidPrefix p = true ->
  p <> EmptyString ->
  decode suf = Return v ->
  uuidValidate (stringify v) = true ->
  (let* r := typeIdToUUID (p ++ "_" ++ suf) in typeIdFromUUID name (uuid r))
  = Return (idTypesMapNameToPrefix name ++ "_" ++ suf).
Proof.
  intros Hp Hne Hdec Hvalid. rewrite <- (format_nonempty p suf Hne).
  now apply (retag name p suf v).
Qed.

Lemma typeIdFromUUID_retags_witness :
  isValidPrefix "pst" = true
  /\ "pst" <> EmptyString
  /\ decode "01h455vb4pex5vsknk084sn02q"
     = Return 2040782911132661522235942288014082135
  /\ uuidValidate (stringify 2040782911132661522235942288014082135) = true
  /\ (let* r := typeIdToUUID "pst_01h455vb4pex5vsknk084sn02q" in
      typeIdFromUUID comment (uuid r))
     = Return "cmt_01h455vb4pex5vsknk084sn02q".
Proof.
  split; [vm_compute; reflexivity|]. split; [discriminate|].
  do 2 (split; [vm_compute; reflexivity|]).
  exact (typeIdFromUUID_retags comment "pst" "01h455vb4pex5vsknk084sn02q"
           2040782911132661522235942288014082135
           ltac:(vm_compute; reflexivity) ltac:(discriminate)
           ltac:(vm_compute; reflexivity) ltac:(vm_compute; reflexivity)).
Defined.

Lemma format_injective (name1 name2 : IdTypePrefixNames) (suf1 suf2 : string) :
  idTypesMapNameToPrefix name1 ++ "_" ++ suf1
  = idTypesMapNameToPrefix name2 ++ "_" ++ suf2 ->
  name1 = name2 /\ suf1 = suf2.
Proof.
  intros H.
  destruct name1, name2; cbn [idTypesMapNameToPrefix] in H;
    rewrite ?app_cons, ?app_nil in H;
    try discriminate H;
    (split; [reflexivity | now injection H]).
Qed.

(** X9. [typeIdFromUUID] loses nothing: two identifiers it produces are
    equal only for the same type name and the same 128-bit value. *)
Theorem typeIdFromUUID_injective
    (name1 name2 : IdTypePrefixNames) (v1 v2 : Z) :
  0 <= v1 < 2 ^ 128 ->
  0 <= v2 < 2 ^ 128 ->
  typeIdFromUUID name1 (stringify v1) = typeIdFromUUID name2 (stringify v2) ->
  name1 = name2 /\ v1 = v2.
Proof.
  intros H1 H2 Heq.
  rewrite !typeIdFromUUID_stringify in Heq by assumption.
  injection Heq as Heq. apply format_injective in Heq as [-> Henc].
  split; [reflexivity|].
  pose proof (decode_encode v1 H1) as Hd. rewrite Henc, decode_encode in Hd by exact H2.
  now injection Hd.
Qed.

Lemma typeIdFromUUID_injective_witness :
  0 <= 7 < 2 ^ 128
  /\ typeIdFromUUID post (stringify 7) = typeIdFromUUID post (stringify 7)
  /\ post = post /\ 7 = 7.
Proof.
  split; [lia|]. split; [reflexivity|].
  apply (typeIdFromUUID_injective post post 7 7); [lia | lia | reflexivity].
Defined.

(** X10. [inferTypeId] recovers the type name of every identifier that
    [typeIdGenerator] produces. *)
Theorem inferTypeId_typeIdGenerator (name : IdTypePrefixNames) (fresh : Z) :
  0 <= fresh < 2 ^ 128 ->
  (let* id := typeIdGenerator fresh name in inferTypeId id) = Return (Own name).
Proof.
  intros Hv. rewrite (typeIdGenerator_value name fresh Hv). cbn [bind].
  exact (inferTypeId_registered name (encode fresh) fresh (decode_encode fresh Hv)).
Qed.

Lemma inferTypeId_typeIdGenerator_witness :
  0 <= 2 ^ 100 < 2 ^ 128
  /\ (let* id := typeIdGenerator (2 ^ 100) post in inferTypeId id)
     = Return (Own post).
Proof.
  split; [lia|].
  apply (inferTypeId_typeIdGenerator post (2 ^ 100)). lia.
Defined.

(** X11. Identifiers generated for one type name sort like the values they
    were generated from: a smaller value gives an identifier that comes
    first in the lexicographic order, so distinct values give distinct
    identifiers. *)
Theorem typeIdGenerator_sorted (name : IdTypePrefixNames) (v1 v2 : Z) :
  0 <= v1 -> v1 < v2 -> v2 < 2 ^ 128 ->
  exists id1 id2,
    typeIdGenerator v1 name = Return id1
    /\ typeIdGenerator v2 name = Return id2
    /\ String.compare id1 id2 = Lt.
Proof.
  intros H0 Hlt Hmax.
  exists (idTypesMapNameToPrefix name ++ "_" ++ encode v1),
         (idTypesMapNameToPrefix name ++ "_" ++ encode v2).
  split; [apply typeIdGenerator_value; lia|].
  split; [apply typeIdGenerator_value; lia|].
  rewrite !compare_app. now apply encode_lt.
Qed.

Lemma typeIdGenerator_sorted_witness :
  (0 <= 1023 /\ 1023 < 1024 /\ 1024 < 2 ^ 128)
  /\ exists id1 id2,
       typeIdGenerator 1023 user = Return id1
       /\ typeIdGenerator 1024 user = Return id2
       /\ String.compare id1 id2 = Lt.
Proof.
  split; [lia|].
  apply (typeIdGenerator_sorted user 1023 1024); lia.
Defined.

(** X13. [typeIdToUUID] reads back from a generated identifier the prefix
    of its type name and the UUID of the value the generator drew, for
    every version-7 value, which is what the generator draws. *)
Theorem typeIdToUUID_typeIdGenerator (name : IdTypePrefixNames) (fresh : Z) :
  0 <= fresh < 2 ^ 128 ->
  isUUIDv7 fresh = true ->
  (let* id := typeIdGenerator fresh name in typeIdToUUID id)
  = Return (mkUuidAndPrefix (stringify fresh) (idTypesMapNameToPrefix name)).
Proof.
  intros Hv H7. rewrite (typeIdGenerator_value name fresh Hv). cbn [bind].
  rewrite <- format_registered.
  rewrite (typeIdToUUID_format _ _ fresh (registered_prefix_valid name)
             (decode_encode fresh Hv)).
  now rewrite (isUUIDv7_valid fresh H7).
Qed.

Lemma typeIdToUUID_typeIdGenerator_witness :
  0 <= 2040782911132661522235942288014082135 < 2 ^ 128
  /\ isUUIDv7 2040782911132661522235942288014082135 = true
  /\ (let* id := typeIdGenerator 2040782911132661522235942288014082135 user in
      typeIdToUUID id)
     = Return (mkUuidAndPrefix "01890a5d-ac96-774b-bcce-b302099a8057" "usr").
Proof.
  split; [lia|]. split; [vm_compute; reflexivity|].
  exact (typeIdToUUID_typeIdGenerator user 2040782911132661522235942288014082135
           ltac:(lia) ltac:(vm_compute; reflexivity)).
Defined.

(* ===================================================================== *)
(** ** The column type of [example.drizzle.ts] *)
(* ===================================================================== *)

Lemma column_write_read
    (name : IdTypePrefixNames) (col p suf : string) (v : Z) :
  isValidPrefix p = true ->
  decode suf = Return v ->
  uuidValidate (stringify v) = true ->
  (let* u := toDriver (typeId name col) (format p suf) in
   fromDriver (typeId name col) u)
  = Return (idTypesMapNameToPrefix name ++ "_" ++ suf).
Proof.
  intros Hp Hdec Hvalid. cbn [toDriver fromDriver typeId].
  rewrite (typeIdToUUID_format p suf v Hp Hdec), Hvalid. cbn [bind uuid].
  destruct (decode_Return suf v Hdec) as (_ & Hv & Henc).
  now rewrite (typeIdFromUUID_stringify name v Hv), Henc.
Qed.

(** X14. A UUID read from the database through a column and written back
    through it is unchanged, for every 128-bit value whose UUID text is a
    valid UUID (version digit 1 to 8 and variant digit 8 to b, or nil or
    max) and every column. *)
Theorem column_read_write (name : IdTypePrefixNames) (col : string) (v : Z) :
  0 <= v < 2 ^ 128 ->
  uuidValidate (stringify v) = true ->
  (let* id := fromDriver (typeId name col) (stringify v) in
   toDriver (typeId name col) id)
  = Return (stringify v).
Proof.
  intros Hv Hvalid. cbn [toDriver fromDriver typeId].
  rewrite (typeIdFromUUID_stringify name v Hv). cbn [bind].
  rewrite <- format_registered.
  rewrite (typeIdToUUID_format _ _ v (registered_prefix_valid name)
             (decode_encode v Hv)), Hvalid.
  reflexivity.
Qed.

Lemma column_read_write_witness :
  0 <= 24249434048109257320608360044760088576 < 2 ^ 128
  /\ uuidValidate (stringify 24249434048109257320608360044760088576) = true
  /\ (let* id := fromDriver (typeId user "id")
                   "123e4567-e89b-42d3-a456-426614174000" in
      toDriver (typeId user "id") id)
     = Return "123e4567-e89b-42d3-a456-426614174000".
Proof.
  split; [lia|]. split; [vm_compute; reflexivity|].
  exact (column_read_write user "id" 24249434048109257320608360044760088576
           ltac:(lia) ltac:(vm_compute; reflexivity)).
Defined.

(** X15. When an identifier that [validateTypeId] accepts for the type
    name of a column can be written through the column, reading the
    stored UUID back gives the identifier. *)
Theorem column_validated_write_read
    (name : IdTypePrefixNames) (col s u : string) :
  validateTypeId name (VString s) = Return true ->
  toDriver (typeId name col) s = Return u ->
  fromDriver (typeId name col) u = Return s.
Proof.
  intros Hok Hu. cbn [toDriver fromDriver typeId] in *.
  destruct (typeIdToUUID s) as [r|e] eqn:Hr; [|discriminate].
  cbn [bind] in Hu. injection Hu as <-.
  destruct (validated_typeIdToUUID_Return name s r Hok Hr) as (v & Hv & -> & ->).
  exact (typeIdFromUUID_stringify name v Hv).
Qed.

Lemma column_validated_write_read_witness :
  validateTypeId post (VString "pst_01h455vb4pex5vsknk084sn02q") = Return true
  /\ toDriver (typeId post "id") "pst_01h455vb4pex5vsknk084sn02q"
     = Return "01890a5d-ac96-774b-bcce-b302099a8057"
  /\ fromDriver (typeId post "id") "01890a5d-ac96-774b-bcce-b302099a8057"
     = Return "pst_01h455vb4pex5vsknk084sn02q".
Proof.
  do 2 (split; [vm_compute; reflexivity|]).
  exact (column_validated_write_read post "id" "pst_01h455vb4pex5vsknk084sn02q"
           "01890a5d-ac96-774b-bcce-b302099a8057"
           ltac:(vm_compute; reflexivity) ltac:(vm_compute; reflexivity)).
Defined.

(** X16. A column does not check the type of what is written through it:
    an identifier of another registered type name whose value has a
    valid UUID text is stored, and read back with the same suffix under
    the prefix of the column's own type name. *)
Theorem column_ignores_type
    (name other : IdTypePrefixNames) (col suf : string) (v : Z) :
  decode suf = Return v ->
  uuidValidate (stringify v) = true ->
  (let* u := toDriver (typeId name col)
               (idTypesMapNameToPrefix other ++ "_" ++ suf) in
   fromDriver (typeId name col) u)
  = Return (idTypesMapNameToPrefix name ++ "_" ++ suf).
Proof.
  intros Hdec Hvalid. rewrite <- (format_registered other).
  exact (column_write_read name col _ suf v (registered_prefix_valid other)
           Hdec Hvalid).
Qed.

Lemma column_ignores_type_witness :
  decode "01h455vb4pex5vsknk084sn02q"
  = Return 2040782911132661522235942288014082135
  /\ uuidValidate (stringify 2040782911132661522235942288014082135) = true
  /\ (let* u := toDriver (typeId user "author_id")
                  "pst_01h455vb4pex5vsknk084sn02q" in
      fromDriver (typeId user "author_id") u)
     = Return "usr_01h455vb4pex5vsknk084sn02q".
Proof.
  do 2 (split; [vm_compute; reflexivity|]).
  exact (column_ignores_type user post "author_id" "01h455vb4pex5vsknk084sn02q"
           2040782911132661522235942288014082135
           ltac:(vm_compute; reflexivity) ltac:(vm_compute; reflexivity)).
Defined.
